(** * gohbase: ZooKeeper resource location, scan requests and the region cache

    A shallow embedding of
    - [zk.LocateResource] (package [zk]): the decoder of the znode that
      publishes the location of the meta region or of the master;
    - [hrpc.Scan] and its [Serialize] method (package [hrpc]);
    - the region cache of package [gohbase] ([getRegionFromCache], [put],
      [getOverlaps]), whose tests are part of the sources.

    Go values are modelled as follows: [[]byte] is [list byte], an unsigned
    integer of width w is a [Z] in [0, 2^w), a pointer that may be nil is an
    [option], a multi-valued return is a tuple, and a call that can panic or
    terminate the process is an [outcome]. *)

From Stdlib Require Import ZArith List Lia Bool String Ascii.
From Stdlib Require Import Strings.Byte Sorting.Sorted Sorting.Permutation.
Import ListNotations.

Set Implicit Arguments.
Local Open Scope Z_scope.

(** * Part I: the model *)

(** ** Byte slices *)

Definition bytes := list byte.

(** [[]byte("...")]: the bytes of a string literal. *)
Definition bytes_of (s : string) : bytes := list_byte_of_string s.

(** [uintN(b)] for a byte [b]. *)
Definition byte_to_Z (x : byte) : Z := Z.of_N (Byte.to_N x).

Module GoBytes.

(** [bytes.Compare]: lexicographic comparison of two byte slices, bytes taken
    as unsigned; [Lt], [Eq], [Gt] stand for the results -1, 0 and +1. *)
Fixpoint Compare (a b : bytes) : comparison :=
  match a, b with
  | [], [] => Eq
  | [], _ :: _ => Lt
  | _ :: _, [] => Gt
  | x :: a', y :: b' =>
      match N.compare (Byte.to_N x) (Byte.to_N y) with
      | Eq => Compare a' b'
      | c => c
      end
  end.

(** [bytes.Equal]. A nil slice and an empty one are equal, as both are []. *)
Definition Equal (a b : bytes) : bool :=
  match Compare a b with Eq => true | _ => false end.

(** [bytes.Compare(a, b) < 0] and [bytes.Compare(a, b) <= 0]. *)
Definition ltb (a b : bytes) : bool :=
  match Compare a b with Lt => true | _ => false end.

Definition leb (a b : bytes) : bool :=
  match Compare a b with Gt => false | _ => true end.

End GoBytes.

(** ** Outcomes of a Go call

    A call returns, panics (a run-time error such as an index out of range),
    or terminates the process ([os.Exit], reached through [log.Fatalf]). *)

Inductive panic : Type :=
| IndexOutOfRange
| SliceBoundsOutOfRange
| NilDereference.

Inductive outcome (A : Type) : Type :=
| Returns (a : A)
| Panics (p : panic)
| Exits (code : Z) (message : string).

Arguments Returns {A} a.
Arguments Panics {A} p.
Arguments Exits {A} code message.

Definition bind {A B : Type} (m : outcome A) (k : A -> outcome B) : outcome B :=
  match m with
  | Returns a => k a
  | Panics p => Panics p
  | Exits c s => Exits c s
  end.

Notation "x <- m ;; k" := (bind m (fun x => k))
  (at level 61, m at next level, right associativity).

(** [buf[i]]: panics when [i] is not below [len(buf)]. *)
Definition index (buf : bytes) (i : nat) : outcome byte :=
  match nth_error buf i with
  | Some x => Returns x
  | None => Panics IndexOutOfRange
  end.

(** [buf[lo:]]: panics when [lo] exceeds [len(buf)]. *)
Definition slice_from (buf : bytes) (lo : nat) : outcome bytes :=
  if (lo <=? List.length buf)%nat then Returns (skipn lo buf)
  else Panics SliceBoundsOutOfRange.

(** [*p] for a pointer [p]. *)
Definition deref {A : Type} (p : option A) : outcome A :=
  match p with
  | Some a => Returns a
  | None => Panics NilDereference
  end.

(** [binary.BigEndian.Uint32(b)]:
    [_ = b[3]] (the bounds check), then
    [uint32(b[3]) | uint32(b[2])<<8 | uint32(b[1])<<16 | uint32(b[0])<<24]. *)
Definition BigEndian_Uint32 (b : bytes) : outcome Z :=
  match b with
  | b0 :: b1 :: b2 :: b3 :: _ =>
      Returns (Z.lor (Z.lor (Z.lor (byte_to_Z b3)
                                   (Z.shiftl (byte_to_Z b2) 8))
                            (Z.shiftl (byte_to_Z b1) 16))
                     (Z.shiftl (byte_to_Z b0) 24))
  | _ => Panics IndexOutOfRange
  end.

(** The value of four bytes read as a big-endian number, by arithmetic. *)
Definition be32 (b0 b1 b2 b3 : byte) : Z :=
  byte_to_Z b0 * 2 ^ 24 + byte_to_Z b1 * 2 ^ 16 + byte_to_Z b2 * 2 ^ 8
  + byte_to_Z b3.

(** [uint16(x)] and [uint32(x)]: conversions that keep the low bits. *)
Definition uint16 (x : Z) : Z := x mod 2 ^ 16.
Definition uint32 (x : Z) : Z := x mod 2 ^ 32.

(** [math.MaxUint64]. *)
Definition MaxUint64 : Z := 2 ^ 64 - 1.

(** * Package zk *)

Module zk.

Definition ResourceName := string.

Definition sessionTimeout : Z := 30.
Definition znodeRoot : string := "hbase".

(** [fmt.Sprintf(MetaTemplate, name)] and [fmt.Sprintf(MasterTemplate, name)],
    the templates being "/%s/meta-region-server" and "/%s/master". *)
Definition MetaTemplate (name : string) : string :=
  ("/" ++ name ++ "/meta-region-server")%string.
Definition MasterTemplate (name : string) : string :=
  ("/" ++ name ++ "/master")%string.

(** The package variables [Meta] and [Master]. *)
Record names : Type := {
  Meta : ResourceName;
  Master : ResourceName
}.

Definition SetZnodeRoot (name : string) : names :=
  {| Meta := MetaTemplate name; Master := MasterTemplate name |}.

(** [init]: the names at start-up. *)
Definition init : names := SetZnodeRoot znodeRoot.

(** The messages of package [pb] that [LocateResource] reads: a field of a
    proto2 message is a pointer, nil when the field is absent. *)
Record ServerName : Type := {
  HostName : option string;
  Port : option Z;          (* *uint32 *)
  StartCode : option Z      (* *uint64 *)
}.

Record MetaRegionServer : Type := { Server : option ServerName }.

Record MasterMsg : Type := { MasterServer : option ServerName }.

(** The errors [LocateResource] builds with [fmt.Errorf], one constructor per
    format string, carrying the values formatted. *)
Inductive error : Type :=
| ErrConnecting (zkquorum : string) (err : string)
    (* "Error connecting to ZooKeeper at %v: %s" *)
| ErrReadZnode (resource : ResourceName) (err : string)
    (* "Failed to read the %s znode: %s" *)
| ErrFirstByte (resource : ResourceName) (b0 : byte)
    (* "The first byte of %s was 0x%x, not 0xFF" *)
| ErrMetadataLength (resource : ResourceName) (metadataLen : Z)
    (* "Invalid metadata length for %s: %d" *)
| ErrMagic (resource : ResourceName) (magic : Z)
    (* "Invalid magic number for %s: %d" *)
| ErrDeserializeMeta (err : string)
    (* "Failed to deserialize the MetaRegionServer entry from ZK: %s" *)
| ErrDeserializeMaster (err : string).
    (* "Failed to deserialize the Master entry from ZK: %s" *)

(** The kinds of fault of a resolution attempt that returns an error: the
    coordination service could not be reached or read, or the blob read from it
    does not decode. *)
Inductive fault : Type := Connectivity | Decode.

Definition fault_of (e : error) : fault :=
  match e with
  | ErrConnecting _ _ | ErrReadZnode _ _ => Connectivity
  | ErrFirstByte _ _ | ErrMetadataLength _ _ | ErrMagic _ _
  | ErrDeserializeMeta _ | ErrDeserializeMaster _ => Decode
  end.

(** What [LocateResource] calls outside the package: the ZooKeeper client
    ([zookeeper.Dial], then [Get] on the connection it gave) and the protobuf
    decoder ([proto.UnmarshalMerge] into an empty message). An [option string]
    is a Go [error], nil when [None]. *)
Record world : Type := {
  Dial : string -> Z -> option string;
  Get : string -> string -> bytes * option string;
  UnmarshalMeta : bytes -> MetaRegionServer * option string;
  UnmarshalMaster : bytes -> MasterMsg * option string
}.

(** [const pbufMagic = 1346524486 // 4 bytes: "PBUF"]. *)
Definition pbufMagic : Z := 1346524486.

(** The last statement: the host name and the port of [server], both read
    through their pointers, the port converted to [uint16]; the error is nil. *)
Definition located (server : option ServerName)
  : outcome (string * Z * option error) :=
  s <- deref server ;;
  host <- deref (HostName s) ;;
  port <- deref (Port s) ;;
  Returns (host, uint16 port, None).

(** The message of [log.Fatalf("%s was empty!", resource)]. *)
Definition was_empty (resource : ResourceName) : string :=
  (resource ++ " was empty!")%string.

(** [LocateResource(zkquorum, resource)], the package variables [g] and the
    outside world [w] made explicit. [log.Fatalf] logs the message and calls
    [os.Exit(1)]. *)
Definition LocateResource (g : names) (w : world)
    (zkquorum : string) (resource : ResourceName)
  : outcome (string * Z * option error) :=
  match Dial w zkquorum sessionTimeout with
  | Some err => Returns (""%string, 0, Some (ErrConnecting zkquorum err))
  | None =>
    let '(sbuf, err) := Get w zkquorum resource in
    let buf := sbuf in
    match err with
    | Some err => Returns (""%string, 0, Some (ErrReadZnode resource err))
    | None =>
      if (List.length buf =? 0)%nat then Exits 1 (was_empty resource)
      else
        b0 <- index buf 0 ;;
        if negb (Byte.eqb b0 xff) then
          Returns (""%string, 0, Some (ErrFirstByte resource b0))
        else
          rest <- slice_from buf 1 ;;
          metadataLen <- BigEndian_Uint32 rest ;;
          if (metadataLen <? 1) || (metadataLen >? 65000) then
            Returns (""%string, 0, Some (ErrMetadataLength resource metadataLen))
          else
            buf <- slice_from buf (Z.to_nat (uint32 (1 + 4 + metadataLen))) ;;
            magic <- BigEndian_Uint32 buf ;;
            if negb (magic =? pbufMagic) then
              Returns (""%string, 0, Some (ErrMagic resource magic))
            else
              buf <- slice_from buf 4 ;;
              if String.eqb resource (Meta g) then
                let '(meta, err) := UnmarshalMeta w buf in
                match err with
                | Some err =>
                    Returns (""%string, 0, Some (ErrDeserializeMeta err))
                | None => located (Server meta)
                end
              else
                let '(master, err) := UnmarshalMaster w buf in
                match err with
                | Some err =>
                    Returns (""%string, 0, Some (ErrDeserializeMaster err))
                | None => located (MasterServer master)
                end
    end
  end.

(** ** The layout of the blob

    Offset 0 holds the magic byte, offsets 1 to 4 the length of the metadata
    as a big-endian number, then come the metadata, the four bytes of the
    format magic and the serialized record. *)

Definition bad_first_byte (blob : bytes) : Prop :=
  exists b0 rest, blob = b0 :: rest /\ b0 <> xff.

Definition bad_metadata_length (blob : bytes) : Prop :=
  exists b0 l0 l1 l2 l3 rest,
    blob = b0 :: l0 :: l1 :: l2 :: l3 :: rest /\
    (be32 l0 l1 l2 l3 = 0 \/ be32 l0 l1 l2 l3 > 65000).

Definition bad_format_magic (blob : bytes) : Prop :=
  exists b0 l0 l1 l2 l3 metadata m0 m1 m2 m3 rest,
    blob = b0 :: l0 :: l1 :: l2 :: l3 :: metadata ++ m0 :: m1 :: m2 :: m3 :: rest /\
    Z.of_nat (List.length metadata) = be32 l0 l1 l2 l3 /\
    be32 m0 m1 m2 m3 <> be32 "P" "B" "U" "F".

(** A non-empty blob that starts with [0xFF] and ends before its layout does:
    before the end of the length field, or, the length being in range, before
    the end of the format magic. *)
Definition truncated (blob : bytes) : Prop :=
  (exists rest, blob = xff :: rest /\ (List.length rest < 4)%nat) \/
  (exists l0 l1 l2 l3 rest,
     blob = xff :: l0 :: l1 :: l2 :: l3 :: rest /\
     1 <= be32 l0 l1 l2 l3 <= 65000 /\
     Z.of_nat (List.length rest) < be32 l0 l1 l2 l3 + 4).

(** The record [record] is a serialized location of the kind [resource] asks
    for, with host name [host] and port [port]. *)
Definition valid_record (g : names) (w : world) (resource : ResourceName)
    (record : bytes) (host : string) (port : Z) : Prop :=
  if String.eqb resource (Meta g) then
    exists code,
      UnmarshalMeta w record =
      ({| Server := Some {| HostName := Some host; Port := Some port;
                            StartCode := code |} |}, None)
  else
    exists code,
      UnmarshalMaster w record =
      ({| MasterServer := Some {| HostName := Some host; Port := Some port;
                                  StartCode := code |} |}, None).

(** The end of [LocateResource], from the record that follows the format
    magic: the decoder that the resource selects, then the host name and the
    port of the server decoded. *)
Definition record_location (g : names) (w : world) (resource : ResourceName)
    (buf : bytes) : outcome (string * Z * option error) :=
  if String.eqb resource (Meta g) then
    let '(meta, err) := UnmarshalMeta w buf in
    match err with
    | Some err => Returns (""%string, 0, Some (ErrDeserializeMeta err))
    | None => located (Server meta)
    end
  else
    let '(master, err) := UnmarshalMaster w buf in
    match err with
    | Some err => Returns (""%string, 0, Some (ErrDeserializeMaster err))
    | None => located (MasterServer master)
    end.

(** The server and the error that the decoder selected by the resource gives
    for a record, and the error that [LocateResource] makes of a failure of
    that decoder. *)
Definition unmarshalled (g : names) (w : world) (resource : ResourceName)
    (record : bytes) : option ServerName * option string :=
  if String.eqb resource (Meta g) then
    (Server (fst (UnmarshalMeta w record)), snd (UnmarshalMeta w record))
  else
    (MasterServer (fst (UnmarshalMaster w record)),
     snd (UnmarshalMaster w record)).

Definition deserialize_error (g : names) (resource : ResourceName)
    (err : string) : error :=
  if String.eqb resource (Meta g) then ErrDeserializeMeta err
  else ErrDeserializeMaster err.

(** A blob whose length field is out of range. *)
Definition length_out_of_range (blob : bytes) : Prop :=
  exists l0 l1 l2 l3 rest,
    blob = xff :: l0 :: l1 :: l2 :: l3 :: rest /\
    (be32 l0 l1 l2 l3 = 0 \/ be32 l0 l1 l2 l3 > 65000).

(** A blob with the whole envelope: the magic byte, a length in range, the
    metadata of that length and four bytes of format magic, before [record]. *)
Definition enveloped (blob : bytes) (m0 m1 m2 m3 : byte) (record : bytes)
  : Prop :=
  exists l0 l1 l2 l3 metadata,
    blob = xff :: l0 :: l1 :: l2 :: l3 ::
           metadata ++ m0 :: m1 :: m2 :: m3 :: record /\
    1 <= be32 l0 l1 l2 l3 <= 65000 /\
    Z.of_nat (List.length metadata) = be32 l0 l1 l2 l3.

(** A world for examples: ZooKeeper is reachable and every znode holds
    [blob]; the decoder reads the host name from the record's bytes and gives
    the port 16020 (meta) or 16000 (master). *)
Definition example_world (blob : bytes) : world :=
  {| Dial := fun _ _ => None;
     Get := fun _ _ => (blob, None);
     UnmarshalMeta := fun r =>
       ({| Server := Some {| HostName := Some (string_of_list_byte r);
                             Port := Some 16020; StartCode := None |} |}, None);
     UnmarshalMaster := fun r =>
       ({| MasterServer := Some {| HostName := Some (string_of_list_byte r);
                                   Port := Some 16000; StartCode := None |} |},
        None) |}.

(** Two more worlds for examples: one whose decoder fails on every record,
    and one in which the server decoded has the port [port]. *)
Definition garbled_world (blob : bytes) : world :=
  {| Dial := fun _ _ => None;
     Get := fun _ _ => (blob, None);
     UnmarshalMeta := fun _ =>
       ({| Server := None |}, Some "unexpected EOF"%string);
     UnmarshalMaster := fun _ =>
       ({| MasterServer := None |}, Some "unexpected EOF"%string) |}.

Definition port_world (blob : bytes) (port : option Z) : world :=
  {| Dial := fun _ _ => None;
     Get := fun _ _ => (blob, None);
     UnmarshalMeta := fun r =>
       ({| Server := Some {| HostName := Some (string_of_list_byte r);
                             Port := port; StartCode := None |} |}, None);
     UnmarshalMaster := fun r =>
       ({| MasterServer := Some {| HostName := Some (string_of_list_byte r);
                                   Port := port; StartCode := None |} |},
        None) |}.

(** Blobs for examples: a metadata field of two bytes, then the format magic
    (right, or wrong in its last byte) and a record. *)
Definition example_blob (magic : string) : bytes :=
  xff :: x00 :: x00 :: x00 :: x02 ::
  bytes_of "id" ++ bytes_of magic ++ bytes_of "rs1.example.org".

(** The same record behind five bytes of other metadata. *)
Definition other_metadata_blob : bytes :=
  xff :: x00 :: x00 :: x00 :: x05 ::
  bytes_of "12345" ++ bytes_of "PBUF" ++ bytes_of "rs1.example.org".

(** A blob cut after the first byte of its length field. *)
Definition short_blob : bytes := [xff; x00].

End zk.

(** * Package pb: the messages of a scan request

    The generated message types that [Scan.Serialize] fills, with the fields
    it sets. An optional field is a pointer, nil when the field is absent from
    the serialized message. *)

Module pb.

Record RegionSpecifier : Type := {
  RegionSpecifier_Type : option Z;
  RegionSpecifier_Value : bytes
}.

Record Column : Type := {
  Column_Family : bytes;
  Column_Qualifier : list bytes
}.

Record Filter : Type := {
  Filter_Name : option string;
  Filter_SerializedFilter : bytes
}.

Record TimeRange : Type := {
  From : option Z;   (* *uint64 *)
  To : option Z      (* *uint64 *)
}.

Record Scan : Type := {
  Scan_Column : list Column;
  StartRow : bytes;
  StopRow : bytes;
  Scan_Filter : option Filter;
  Scan_TimeRange : option TimeRange;
  MaxVersions : option Z   (* *uint32 *)
}.

Record ScanRequest : Type := {
  Region : option RegionSpecifier;
  ScanRequest_Scan : option Scan;
  ScannerId : option Z;      (* *uint64 *)
  NumberOfRows : option Z;   (* *uint32 *)
  CloseScanner : option bool
}.

End pb.

(** * Package hrpc: scan requests *)

Module hrpc.

Definition DefaultMaxVersions : Z := 1.
Definition MinTimestamp : Z := 0.
Definition MaxTimestamp : Z := MaxUint64.
Definition DefaultNumberOfRows : Z := 128.

(** A value of the interface [filter.Filter]: what its method
    [ConstructPBFilter] returns, a message and an error. *)
Record Filter : Type := {
  ConstructPBFilter : option pb.Filter * option string
}.

(** [map[string][]string], a column family with its qualifiers per entry;
    the nil map is []. *)
Definition families_map := list (string * list string).

Section Scan.

(** Declared outside the file of [Scan]: the type of contexts, the interface
    [RegionInfo], and three functions: the method [regionSpecifier] of [base],
    [familiesToColumn] and [proto.Marshal]. *)
Variables (Context RegionInfo : Type).

(** The struct [base] that every call embeds. *)
Record base : Type := {
  table : bytes;
  key : bytes;
  region : option RegionInfo;
  ctx : Context
}.

Record Scan : Type := {
  scan_base : base;
  families : families_map;
  closeScanner : bool;
  startRow : bytes;
  stopRow : bytes;
  fromTimestamp : Z;   (* uint64 *)
  toTimestamp : Z;     (* uint64 *)
  maxVersions : Z;     (* uint32 *)
  scannerID : Z;       (* uint64 *)
  numberOfRows : Z;    (* uint32 *)
  filters : option Filter
}.

Variable regionSpecifier : base -> option pb.RegionSpecifier.
Variable familiesToColumn : families_map -> list pb.Column.
Variable Marshal : pb.ScanRequest -> bytes * option string.

(** An option of a call: it may change the call and may fail. *)
Definition call_option := Scan -> Scan * option string.

(** [applyOptions(s, options...)], declared with [base]. *)
Variable applyOptions : Scan -> list call_option -> Scan * option string.

(** [baseScan]: a [Scan] with the default values, then the options. The
    result is the pair of a pointer to the scan, nil on an error, and the error. *)
Definition baseScan (c : Context) (table key : bytes)
    (options : list call_option) : option Scan * option string :=
  let s := {| scan_base := {| table := table; key := key; region := None;
                              ctx := c |};
              families := [];
              closeScanner := false;
              startRow := [];
              stopRow := [];
              fromTimestamp := MinTimestamp;
              toTimestamp := MaxTimestamp;
              maxVersions := DefaultMaxVersions;
              scannerID := MaxUint64;
              numberOfRows := DefaultNumberOfRows;
              filters := None |} in
  match applyOptions s options with
  | (_, Some err) => (None, Some err)
  | (s, None) => (Some s, None)
  end.

Definition NewScan (c : Context) (table : bytes) (options : list call_option)
  : option Scan * option string :=
  let startRow := [] in
  baseScan c table startRow options.

Definition with_rows (s : Scan) (startRow stopRow : bytes) : Scan :=
  {| scan_base := scan_base s; families := families s;
     closeScanner := closeScanner s;
     startRow := startRow; stopRow := stopRow;
     fromTimestamp := fromTimestamp s; toTimestamp := toTimestamp s;
     maxVersions := maxVersions s; scannerID := scannerID s;
     numberOfRows := numberOfRows s; filters := filters s |}.

Definition with_scannerID (s : Scan) (id : Z) (close : bool) : Scan :=
  {| scan_base := scan_base s; families := families s;
     closeScanner := close;
     startRow := startRow s; stopRow := stopRow s;
     fromTimestamp := fromTimestamp s; toTimestamp := toTimestamp s;
     maxVersions := maxVersions s; scannerID := id;
     numberOfRows := numberOfRows s; filters := filters s |}.

Definition NewScanRange (c : Context) (table startRow stopRow : bytes)
    (options : list call_option) : option Scan * option string :=
  match baseScan c table startRow options with
  | (_, Some err) => (None, Some err)
  | (None, None) => (None, None)
  | (Some scan, None) => (Some (with_rows scan startRow stopRow), None)
  end.

(** [NewScanFromID] and [NewCloseFromID]: [baseScan] without options, its
    error dropped, then the scanner ID set through the pointer returned. *)
Definition NewScanFromID (c : Context) (table : bytes) (scannerID : Z)
    (startRow : bytes) : outcome Scan :=
  scan <- deref (fst (baseScan c table startRow [])) ;;
  Returns (with_scannerID scan scannerID (closeScanner scan)).

Definition NewCloseFromID (c : Context) (table : bytes) (scannerID : Z)
    (startRow : bytes) : outcome Scan :=
  scan <- deref (fst (baseScan c table startRow [])) ;;
  Returns (with_scannerID scan scannerID true).

(** The body of [Serialize] up to its calls of [proto.Marshal]: the request
    built, or the error of the filter, on which [Serialize] returns before it
    marshals anything. *)
Definition scanRequest (s : Scan) : pb.ScanRequest + string :=
  let scan := {| pb.Region := regionSpecifier (scan_base s);
                 pb.ScanRequest_Scan := None;
                 pb.ScannerId := None;
                 pb.NumberOfRows := Some (numberOfRows s);
                 pb.CloseScanner := Some (closeScanner s) |} in
  if negb (scannerID s =? MaxUint64) then
    inl {| pb.Region := pb.Region scan;
           pb.ScanRequest_Scan := pb.ScanRequest_Scan scan;
           pb.ScannerId := Some (scannerID s);
           pb.NumberOfRows := pb.NumberOfRows scan;
           pb.CloseScanner := pb.CloseScanner scan |}
  else
    let body (f : option pb.Filter) :=
      {| pb.Scan_Column := familiesToColumn (families s);
         pb.StartRow := startRow s;
         pb.StopRow := stopRow s;
         pb.Scan_Filter := f;
         pb.Scan_TimeRange :=
           Some {| pb.From := if negb (fromTimestamp s =? MinTimestamp)
                              then Some (fromTimestamp s) else None;
                   pb.To := if negb (toTimestamp s =? MaxTimestamp)
                            then Some (toTimestamp s) else None |};
         pb.MaxVersions := if negb (maxVersions s =? DefaultMaxVersions)
                           then Some (maxVersions s) else None |} in
    let request (f : option pb.Filter) :=
      {| pb.Region := pb.Region scan;
         pb.ScanRequest_Scan := Some (body f);
         pb.ScannerId := pb.ScannerId scan;
         pb.NumberOfRows := pb.NumberOfRows scan;
         pb.CloseScanner := pb.CloseScanner scan |} in
    match filters s with
    | Some ft =>
        let '(pbFilter, err) := ConstructPBFilter ft in
        match err with
        | Some err => inr err
        | None => inl (request pbFilter)
        end
    | None => inl (request None)
    end.

(** [Serialize]: [return proto.Marshal(scan)] on the request built, or
    [return nil, err] on the error of the filter. *)
Definition Serialize (s : Scan) : bytes * option string :=
  match scanRequest s with
  | inl scan => Marshal scan
  | inr err => ([], Some err)
  end.

(** The error that the filter of [s], if it has one, gives. *)
Definition filter_error (s : Scan) : option string :=
  match filters s with
  | Some ft => snd (ConstructPBFilter ft)
  | None => None
  end.

(** The optional fields of the scan of a request, as the values of [s] decide
    them: the message of the filter, the time range, in which a bound that is
    the default is left out, and the number of versions, left out when it is
    the default. *)
Definition scan_filter (s : Scan) : option pb.Filter :=
  match filters s with
  | Some ft => fst (ConstructPBFilter ft)
  | None => None
  end.

Definition scan_time_range (s : Scan) : pb.TimeRange :=
  {| pb.From := if fromTimestamp s =? MinTimestamp then None
                else Some (fromTimestamp s);
     pb.To := if toTimestamp s =? MaxTimestamp then None
              else Some (toTimestamp s) |}.

Definition scan_max_versions (s : Scan) : option Z :=
  if maxVersions s =? DefaultMaxVersions then None else Some (maxVersions s).

(** [SetFamilies] and [SetFilter], which the options of a call use. *)
Definition SetFamilies (s : Scan) (fam : families_map) : Scan * option string :=
  ({| scan_base := scan_base s; families := fam;
      closeScanner := closeScanner s;
      startRow := startRow s; stopRow := stopRow s;
      fromTimestamp := fromTimestamp s; toTimestamp := toTimestamp s;
      maxVersions := maxVersions s; scannerID := scannerID s;
      numberOfRows := numberOfRows s; filters := filters s |}, None).

Definition SetFilter (s : Scan) (ft : option Filter) : Scan * option string :=
  ({| scan_base := scan_base s; families := families s;
      closeScanner := closeScanner s;
      startRow := startRow s; stopRow := stopRow s;
      fromTimestamp := fromTimestamp s; toTimestamp := toTimestamp s;
      maxVersions := maxVersions s; scannerID := scannerID s;
      numberOfRows := numberOfRows s; filters := ft |}, None).

(** The request that continues or closes the scanner [id] of a table: no
    scan in it, and the default number of rows. *)
Definition scanner_request (c : Context) (table row : bytes) (id : Z)
    (close : bool) : pb.ScanRequest :=
  {| pb.Region := regionSpecifier {| table := table; key := row;
                                     region := None; ctx := c |};
     pb.ScanRequest_Scan := None;
     pb.ScannerId := Some id;
     pb.NumberOfRows := Some DefaultNumberOfRows;
     pb.CloseScanner := Some close |}.

(** [NewScanStr] and [NewScanRangeStr]: the same with strings. *)
Definition NewScanStr (c : Context) (table : string)
    (options : list call_option) : option Scan * option string :=
  NewScan c (bytes_of table) options.

Definition NewScanRangeStr (c : Context) (table startRow stopRow : string)
    (options : list call_option) : option Scan * option string :=
  NewScanRange c (bytes_of table) (bytes_of startRow) (bytes_of stopRow)
    options.

(** The getters of a scan. *)
Definition GetName (s : Scan) : string := "Scan".
Definition GetStopRow (s : Scan) : bytes := stopRow s.
Definition GetStartRow (s : Scan) : bytes := startRow s.
Definition GetFamilies (s : Scan) : families_map := families s.
Definition GetFilter (s : Scan) : option Filter := filters s.
Definition GetTimeRange (s : Scan) : Z * Z := (fromTimestamp s, toTimestamp s).
Definition GetMaxVersions (s : Scan) : Z := maxVersions s.
Definition GetNumberOfRows (s : Scan) : Z := numberOfRows s.

(** [GetRegionStop]: the method [GetStopKey] of the interface [RegionInfo],
    declared outside the file, called on the region of the scan; the call
    panics on the nil interface value. *)
Variable GetStopKey : RegionInfo -> bytes.

Definition GetRegionStop (s : Scan) : outcome bytes :=
  r <- deref (region (scan_base s)) ;;
  Returns (GetStopKey r).

(** An [applyOptions] for examples: the options in their order, up to the
    first that fails. *)
Fixpoint apply_in_order (s : Scan) (options : list call_option)
  : Scan * option string :=
  match options with
  | [] => (s, None)
  | o :: rest =>
      match o s with
      | (s', Some err) => (s', Some err)
      | (s', None) => apply_in_order s' rest
      end
  end.

End Scan.

(** A scan of the table "t" with the sentinel as its scanner ID and a filter
    that fails to convert, in a world where nothing else fails. *)
Definition failing_filter : Filter :=
  {| ConstructPBFilter := (None, Some "bad filter"%string) |}.

Definition failing_scan : Scan unit unit :=
  {| scan_base := {| table := bytes_of "t"; key := []; region := None;
                     ctx := tt |};
     families := [];
     closeScanner := false;
     startRow := [];
     stopRow := [];
     fromTimestamp := MinTimestamp;
     toTimestamp := MaxTimestamp;
     maxVersions := DefaultMaxVersions;
     scannerID := MaxUint64;
     numberOfRows := DefaultNumberOfRows;
     filters := Some failing_filter |}.

(** The scan that a constructor makes of the table "t" without options, with
    the scanner ID [id] and the filter [ft]. *)
Definition example_scan (id : Z) (ft : option Filter) : Scan unit unit :=
  {| scan_base := {| table := bytes_of "t"; key := []; region := None;
                     ctx := tt |};
     families := [];
     closeScanner := false;
     startRow := [];
     stopRow := [];
     fromTimestamp := MinTimestamp;
     toTimestamp := MaxTimestamp;
     maxVersions := DefaultMaxVersions;
     scannerID := id;
     numberOfRows := DefaultNumberOfRows;
     filters := ft |}.

(** Collaborators for examples: the region is specified by the table of the
    call, a family becomes a column without qualifiers, and the marshalled
    request tells whether it carries a scanner ID and whether it closes. *)
Definition example_specifier (b : base unit unit)
  : option pb.RegionSpecifier :=
  Some {| pb.RegionSpecifier_Type := Some 1;
          pb.RegionSpecifier_Value := table b |}.

Definition example_columns (fam : families_map) : list pb.Column :=
  map (fun f => {| pb.Column_Family := bytes_of (fst f);
                   pb.Column_Qualifier := map bytes_of (snd f) |}) fam.

Definition example_Marshal (req : pb.ScanRequest) : bytes * option string :=
  ((match pb.ScannerId req with Some _ => bytes_of "id" | None => bytes_of "scan" end)
   ++ (match pb.CloseScanner req with
       | Some true => bytes_of ",close"
       | _ => []
       end),
   None).

End hrpc.

(** * Package region: the descriptor of a region *)

Module region.

(** [region.Info] as the tests of the cache build it: the table, the name of
    the region and the half-open range of keys, from [StartKey] to [StopKey],
    where the empty key leaves the range unbounded on that side. *)
Record Info : Type := {
  Table : bytes;
  Name : bytes;
  StartKey : bytes;
  StopKey : bytes
}.

End region.

(** * Package gohbase: the cache of region locations

    The tests of the cache are in the sources ([TestMetaCache],
    [TestMetaCacheGetOverlaps]); the cache itself is not, and is modelled from
    its specification. *)

Module gohbase.

Import region.

(** Modelled from the spec: the cache, whose code is missing, is an index of
    descriptors ordered by (Table, StartKey); here the list of its entries in
    that order. *)
Definition Cache : Type := list Info.

(** Modelled from the spec: the empty key is the sentinel of an unbounded
    end of a range (the missing code tests keys for emptiness). *)
Definition unbounded (k : bytes) : bool :=
  match k with [] => true | _ :: _ => false end.

(** Modelled from the spec: "s < e_or_inf", the comparison of a key with a
    stop key that the missing overlap test and lookup make; an empty stop key
    stands for infinity. *)
Definition before_stop (s e : bytes) : bool :=
  unbounded e || GoBytes.ltb s e.

(** Modelled from the spec: the overlap of two descriptors, missing from the
    sources: they are of the same table and "s1 < e2_or_inf and
    s2 < e1_or_inf". *)
Definition isRegionOverlap (a b : Info) : bool :=
  GoBytes.Equal (Table a) (Table b)
  && before_stop (StartKey a) (StopKey b)
  && before_stop (StartKey b) (StopKey a).

(** Modelled from the spec: [getOverlaps], missing from the sources, gives
    the cached descriptors of the table of [reg] whose range intersects the
    range of [reg]. *)
Definition getOverlaps (c : Cache) (reg : Info) : list Info :=
  filter (isRegionOverlap reg) c.

(** Modelled from the spec: the exact self-match that the missing [put]
    leaves out of the overlaps, "identical StartKey and identical StopKey and
    identical Name". *)
Definition exact_match (a b : Info) : bool :=
  GoBytes.Equal (StartKey a) (StartKey b)
  && GoBytes.Equal (StopKey a) (StopKey b)
  && GoBytes.Equal (Name a) (Name b).

(** Modelled from the spec: the order of the missing index, by table and then
    by start key. *)
Definition key_compare (a b : Info) : comparison :=
  match GoBytes.Compare (Table a) (Table b) with
  | Eq => GoBytes.Compare (StartKey a) (StartKey b)
  | c => c
  end.

(** Modelled from the spec: the missing [put] "inserts or overwrites the entry
    keyed by (Table, StartKey)". *)
Fixpoint insert (reg : Info) (c : Cache) : Cache :=
  match c with
  | [] => [reg]
  | e :: c' =>
      match key_compare reg e with
      | Lt => reg :: e :: c'
      | Eq => reg :: c'
      | Gt => e :: insert reg c'
      end
  end.

(** Modelled from the spec: equality of descriptors, by which the missing
    [put] finds in the cache the entries it removes. *)
Definition Info_eqb (a b : Info) : bool :=
  GoBytes.Equal (Table a) (Table b) && GoBytes.Equal (Name a) (Name b)
  && GoBytes.Equal (StartKey a) (StartKey b)
  && GoBytes.Equal (StopKey a) (StopKey b).

(** Modelled from the spec: whether a cached descriptor is one of those that
    the missing [put] removes. *)
Definition member (e : Info) (l : list Info) : bool := existsb (Info_eqb e) l.

(** Modelled from the spec: [put], missing from the sources, computes the
    cached descriptors that overlap the new one, the exact self-match
    excluded, removes them, inserts the new descriptor and returns the removed
    ones, the superseded descriptors. The result is the cache after the put and
    that list. *)
Definition put (c : Cache) (reg : Info) : Cache * list Info :=
  let superseded :=
    filter (fun e => negb (exact_match e reg)) (getOverlaps c reg) in
  (insert reg (filter (fun e => negb (member e superseded)) c), superseded).

(** Modelled from the spec: the step of the predecessor search of the missing
    lookup, which keeps the entry with "the greatest StartKey <= key among
    entries with the given Table". *)
Definition better (table key : bytes) (best : option Info) (e : Info)
  : option Info :=
  if GoBytes.Equal (Table e) table && GoBytes.leb (StartKey e) key then
    match best with
    | Some b => if GoBytes.leb (StartKey b) (StartKey e) then Some e else Some b
    | None => Some e
    end
  else best.

(** Modelled from the spec: the predecessor search of the missing lookup over
    the entries of the index. *)
Definition floor (c : Cache) (table key : bytes) : option Info :=
  fold_left (better table key) c None.

(** Modelled from the spec: [getRegionFromCache], the [get] of the spec,
    missing from the sources: the predecessor of the key, which "is a valid
    match only if key < StopKey or StopKey is the unbounded sentinel";
    otherwise, and without a predecessor, not-found ([None]). *)
Definition getRegionFromCache (c : Cache) (table key : bytes) : option Info :=
  match floor c table key with
  | Some e => if before_stop key (StopKey e) then Some e else None
  | None => None
  end.

(** The cache after a put, and the cache after a list of puts. *)
Definition after_put (c : Cache) (reg : Info) : Cache := fst (put c reg).

Definition after_puts (c : Cache) (regs : list Info) : Cache :=
  fold_left after_put regs c.

(** ** Notions to state the properties *)

(** A stop key as a bound: a key, or infinity when it is empty. *)
Inductive bound : Type := Finite (k : bytes) | Infinity.

Definition stop_bound (e : bytes) : bound :=
  match e with [] => Infinity | _ :: _ => Finite e end.

Definition lt_bound (s : bytes) (b : bound) : Prop :=
  match b with
  | Finite e => GoBytes.Compare s e = Lt
  | Infinity => True
  end.

(** The descriptors of the data model: the start key is below the stop key
    unless one of them is the unbounded sentinel. *)
Definition well_formed (d : Info) : Prop :=
  StartKey d = [] \/ StopKey d = [] \/
  GoBytes.Compare (StartKey d) (StopKey d) = Lt.

(** The key is in the half-open range of the descriptor. *)
Definition covers (e : Info) (key : bytes) : bool :=
  GoBytes.leb (StartKey e) key && before_stop key (StopKey e).

(** The entries of a cache are in the strict order of their keys. *)
Definition ordered (c : Cache) : Prop :=
  StronglySorted (fun a b => key_compare a b = Lt) c.

(** No two entries of a cache overlap: the invariant that [put] is there to
    keep. *)
Definition disjoint (c : Cache) : Prop :=
  forall a b, In a c -> In b c -> isRegionOverlap a b = true -> a = b.

(** [a] and [b] describe the same range of the same table. *)
Definition same_range (a b : Info) : bool :=
  GoBytes.Equal (Table a) (Table b)
  && GoBytes.Equal (StartKey a) (StartKey b)
  && GoBytes.Equal (StopKey a) (StopKey b).

(** ** Regions and caches of the tests and of the specification *)

(** The cases of the test [TestMetaCacheGetOverlaps], by the names of the
    regions found. *)
Definition named_region (table name start stop : string) : Info :=
  {| Table := bytes_of table; Name := bytes_of name;
     StartKey := bytes_of start; StopKey := bytes_of stop |}.

Definition overlap_names (cached : list Info) (reg : Info) : list string :=
  map (fun e => string_of_list_byte (Name e))
      (getOverlaps (after_puts [] cached) reg).

(** Three adjacent regions of a table, as the test of the cache enters them. *)
Definition first_region (T n : bytes) : Info :=
  {| Table := T; Name := n; StartKey := bytes_of ""; StopKey := bytes_of "foo" |}.

Definition second_region (T n : bytes) : Info :=
  {| Table := T; Name := n; StartKey := bytes_of "foo";
     StopKey := bytes_of "gohbase" |}.

Definition third_region (T n : bytes) : Info :=
  {| Table := T; Name := n; StartKey := bytes_of "gohbase";
     StopKey := bytes_of "" |}.

Definition three_regions (T n1 n2 n3 : bytes) : Cache :=
  after_puts [] [first_region T n1; second_region T n2; third_region T n3].

(** The split of the specification: the cache knows the whole table "t", then
    learns the region that ends at "m". *)
Definition whole_table : Info :=
  {| Table := bytes_of "t"; Name := bytes_of "t,,1";
     StartKey := bytes_of ""; StopKey := bytes_of "" |}.

Definition lower_half : Info :=
  {| Table := bytes_of "t"; Name := bytes_of "t,,2";
     StartKey := bytes_of ""; StopKey := bytes_of "m" |}.

(** A cache of two adjacent regions of the table "t", and a new region that
    overlaps the first of them only. *)
Definition region_to_foo : Info :=
  {| Table := bytes_of "t"; Name := bytes_of "t,,1";
     StartKey := bytes_of ""; StopKey := bytes_of "foo" |}.

Definition region_from_foo : Info :=
  {| Table := bytes_of "t"; Name := bytes_of "t,foo,1";
     StartKey := bytes_of "foo"; StopKey := bytes_of "" |}.

Definition region_to_bar : Info :=
  {| Table := bytes_of "t"; Name := bytes_of "t,,2";
     StartKey := bytes_of ""; StopKey := bytes_of "bar" |}.

Definition two_regions : Cache :=
  after_puts [] [region_to_foo; region_from_foo].

End gohbase.

(** * The names of regions in the tests of the cache

    [type regionNames [][]byte] with the three methods that [sort.Sort]
    needs. An index is an [int], here a [Z]; an index that is negative or not
    below the length makes the access panic. *)

Module regionNames.

Definition t : Type := list bytes.

(** [a[i]]. *)
Definition at_index (a : t) (i : Z) : outcome bytes :=
  match (if i <? 0 then None else nth_error a (Z.to_nat i)) with
  | Some x => Returns x
  | None => Panics IndexOutOfRange
  end.

(** [a[n] = v] for an index in range; out of range the slice is as it was. *)
Fixpoint update (a : t) (n : nat) (v : bytes) : t :=
  match a, n with
  | [], _ => []
  | _ :: r, O => v :: r
  | x :: r, S n' => x :: update r n' v
  end.

Definition Len (a : t) : Z := Z.of_nat (List.length a).

(** [bytes.Compare(a[i], a[j]) < 0]. *)
Definition Less (a : t) (i j : Z) : outcome bool :=
  x <- at_index a i ;;
  y <- at_index a j ;;
  Returns (GoBytes.ltb x y).

(** [a[i], a[j] = a[j], a[i]]: the two values on the right are read first,
    then the two elements are assigned from left to right. The result is the
    slice after the call. *)
Definition Swap (a : t) (i j : Z) : outcome t :=
  y <- at_index a j ;;
  x <- at_index a i ;;
  Returns (update (update a (Z.to_nat i) y) (Z.to_nat j) x).

(** The names of the test, in the order of the regions of the table. *)
Definition example_names : t :=
  [bytes_of "hello,fox,9"; bytes_of "hello,,1"; bytes_of "hello,foo,9"].

End regionNames.

(** * Part II: properties *)

(** ** The order of byte slices *)

Module GoBytesFacts.

Import GoBytes.

Lemma to_N_inj (x y : byte) : Byte.to_N x = Byte.to_N y -> x = y.
Proof.
  intros H. pose proof (Byte.of_to_N x) as Hx. rewrite H, Byte.of_to_N in Hx.
  now injection Hx.
Qed.

Lemma Compare_refl (a : bytes) : Compare a a = Eq.
Proof.
  induction a as [ | x a IH ]; simpl; [ reflexivity | ].
  now rewrite N.compare_refl.
Qed.

Lemma Compare_eq (a b : bytes) : Compare a b = Eq -> a = b.
Proof.
  revert b. induction a as [ | x a IH ]; intros [ | y b ]; simpl;
    try discriminate; [ reflexivity | ].
  destruct (N.compare (Byte.to_N x) (Byte.to_N y)) eqn:E; try discriminate.
  intros H. apply N.compare_eq in E. apply to_N_inj in E.
  now rewrite E, (IH b H).
Qed.

Lemma Compare_antisym (a b : bytes) : Compare b a = CompOpp (Compare a b).
Proof.
  revert b. induction a as [ | x a IH ]; intros [ | y b ]; simpl;
    try reflexivity.
  rewrite (N.compare_antisym (Byte.to_N x) (Byte.to_N y)).
  destruct (N.compare (Byte.to_N x) (Byte.to_N y)); simpl;
    [ apply IH | reflexivity | reflexivity ].
Qed.

Lemma Compare_trans (a b c : bytes) :
  Compare a b = Lt -> Compare b c = Lt -> Compare a c = Lt.
Proof.
  revert b c. induction a as [ | x a IH ]; intros [ | y b ] [ | z c ]; simpl;
    try discriminate; try reflexivity.
  destruct (N.compare (Byte.to_N x) (Byte.to_N y)) eqn:Exy; try discriminate;
    destruct (N.compare (Byte.to_N y) (Byte.to_N z)) eqn:Eyz; try discriminate;
    intros H1 H2.
  - apply N.compare_eq in Exy, Eyz. rewrite Exy, Eyz, N.compare_refl.
    exact (IH b c H1 H2).
  - apply N.compare_eq in Exy. now rewrite Exy, Eyz.
  - apply N.compare_eq in Eyz. now rewrite <- Eyz, Exy.
  - rewrite N.compare_lt_iff in Exy, Eyz.
    assert (Byte.to_N x < Byte.to_N z)%N as H by lia.
    apply N.compare_lt_iff in H. now rewrite H.
Qed.

Lemma Compare_nil_l (b : bytes) : Compare [] b = Lt \/ b = [].
Proof. destruct b; [ now right | now left ]. Qed.

Lemma Equal_true (a b : bytes) : Equal a b = true <-> a = b.
Proof.
  unfold Equal. split.
  - destruct (Compare a b) eqn:E; try discriminate. intros _.
    now apply Compare_eq.
  - intros ->. now rewrite Compare_refl.
Qed.

Lemma Equal_refl (a : bytes) : Equal a a = true.
Proof. now apply Equal_true. Qed.

Lemma ltb_irrefl (a : bytes) : ltb a a = false.
Proof. unfold ltb. now rewrite Compare_refl. Qed.

Lemma leb_refl (a : bytes) : leb a a = true.
Proof. unfold leb. now rewrite Compare_refl. Qed.

Lemma leb_ltb (a b : bytes) : leb a b = negb (ltb b a).
Proof.
  unfold leb, ltb. rewrite (Compare_antisym a b).
  now destruct (Compare a b).
Qed.

Lemma leb_nil (b : bytes) : leb [] b = true.
Proof. now destruct b. Qed.

Lemma leb_ltb_trans (a b c : bytes) :
  leb a b = true -> ltb b c = true -> ltb a c = true.
Proof.
  unfold leb, ltb. destruct (Compare a b) eqn:Eab; try discriminate; intros _.
  - apply Compare_eq in Eab. now subst.
  - destruct (Compare b c) eqn:Ebc; try discriminate. intros _.
    now rewrite (Compare_trans a b c Eab Ebc).
Qed.

Lemma leb_trans (a b c : bytes) :
  leb a b = true -> leb b c = true -> leb a c = true.
Proof.
  unfold leb. destruct (Compare a b) eqn:Eab; try discriminate; intros _.
  - apply Compare_eq in Eab. now subst.
  - destruct (Compare b c) eqn:Ebc; try discriminate; intros _.
    + apply Compare_eq in Ebc. subst. now rewrite Eab.
    + now rewrite (Compare_trans a b c Eab Ebc).
Qed.

End GoBytesFacts.

(** ** Arithmetic of the big-endian read *)

Lemma byte_to_Z_range (x : byte) : 0 <= byte_to_Z x < 256.
Proof.
  unfold byte_to_Z. pose proof (Byte.to_N_bounded x). lia.
Qed.

Lemma land_low_shiftl (lo hi k : Z) :
  0 <= k -> 0 <= lo < 2 ^ k -> Z.land lo (Z.shiftl hi k) = 0.
Proof.
  intros Hk Hlo. apply Z.bits_inj'. intros i Hi.
  rewrite Z.land_spec, Z.bits_0.
  destruct (Z.lt_ge_cases i k) as [Hlt | Hge].
  - rewrite (Z.shiftl_spec_low hi k i Hlt). apply andb_false_r.
  - assert (Z.testbit lo i = false) as ->; [ | reflexivity ].
    destruct (Z.eq_dec lo 0) as [-> | Hne]; [ apply Z.bits_0 | ].
    apply Z.bits_above_log2; [ lia | ].
    apply Z.log2_lt_pow2; try lia.
    apply Z.lt_le_trans with (2 ^ k); [ lia | ].
    apply Z.pow_le_mono_r; lia.
Qed.

Lemma lor_low_shiftl (lo hi k : Z) :
  0 <= k -> 0 <= lo < 2 ^ k -> Z.lor lo (Z.shiftl hi k) = lo + hi * 2 ^ k.
Proof.
  intros Hk Hlo.
  pose proof (Z.add_lor_land lo (Z.shiftl hi k)) as H.
  rewrite (@land_low_shiftl lo hi k Hk Hlo), Z.add_0_r in H.
  rewrite H, Z.shiftl_mul_pow2 by exact Hk. reflexivity.
Qed.

(** The bitwise read of four bytes is their big-endian value. *)
Lemma BigEndian_Uint32_be32 (b0 b1 b2 b3 : byte) (rest : bytes) :
  BigEndian_Uint32 (b0 :: b1 :: b2 :: b3 :: rest) = Returns (be32 b0 b1 b2 b3).
Proof.
  unfold BigEndian_Uint32, be32. f_equal.
  pose proof (byte_to_Z_range b0). pose proof (byte_to_Z_range b1).
  pose proof (byte_to_Z_range b2). pose proof (byte_to_Z_range b3).
  rewrite (@lor_low_shiftl (byte_to_Z b3) (byte_to_Z b2) 8) by lia.
  rewrite (@lor_low_shiftl _ (byte_to_Z b1) 16) by lia.
  rewrite (@lor_low_shiftl _ (byte_to_Z b0) 24) by lia.
  lia.
Qed.

Lemma be32_range (b0 b1 b2 b3 : byte) : 0 <= be32 b0 b1 b2 b3 < 2 ^ 32.
Proof.
  unfold be32.
  pose proof (byte_to_Z_range b0). pose proof (byte_to_Z_range b1).
  pose proof (byte_to_Z_range b2). pose proof (byte_to_Z_range b3). lia.
Qed.

Lemma BigEndian_Uint32_short (b : bytes) :
  (List.length b < 4)%nat -> BigEndian_Uint32 b = Panics IndexOutOfRange.
Proof.
  destruct b as [ | b0 [ | b1 [ | b2 [ | b3 rest ] ] ] ]; simpl; intros H;
    try reflexivity; lia.
Qed.

(** ** Package zk: [LocateResource] *)

Module ZkFacts.

Import zk.

Lemma pbufMagic_be32 : pbufMagic = be32 "P" "B" "U" "F".
Proof. reflexivity. Qed.

Section Located.

Variables (g : names) (w : world) (zkquorum : string) (resource : ResourceName).
Variable blob : bytes.
Hypothesis dialed : Dial w zkquorum sessionTimeout = None.
Hypothesis read : Get w zkquorum resource = (blob, None).

(** Past the connection and the read, the result is that of the decoding. *)
Lemma LocateResource_read_first (b0 : byte) (rest : bytes) :
  blob = b0 :: rest -> b0 <> xff ->
  LocateResource g w zkquorum resource =
  Returns (""%string, 0, Some (ErrFirstByte resource b0)).
Proof.
  intros -> Hb. unfold LocateResource. rewrite dialed, read. simpl.
  destruct (Byte.eqb b0 xff) eqn:E; [ | reflexivity ].
  apply Byte.byte_dec_bl in E. contradiction.
Qed.

Lemma LocateResource_read_length (l0 l1 l2 l3 : byte) (rest : bytes) :
  blob = xff :: l0 :: l1 :: l2 :: l3 :: rest ->
  be32 l0 l1 l2 l3 = 0 \/ be32 l0 l1 l2 l3 > 65000 ->
  LocateResource g w zkquorum resource =
  Returns (""%string, 0, Some (ErrMetadataLength resource (be32 l0 l1 l2 l3))).
Proof.
  intros -> Hn. unfold LocateResource. rewrite dialed, read.
  cbn [List.length Nat.eqb index nth_error bind Byte.eqb negb slice_from
       Nat.leb skipn].
  replace (Byte.eqb xff xff) with true by reflexivity. cbn [negb bind].
  rewrite BigEndian_Uint32_be32. cbn [bind].
  destruct ((be32 l0 l1 l2 l3 <? 1) || (be32 l0 l1 l2 l3 >? 65000)) eqn:E;
    [ reflexivity | ].
  apply orb_false_iff in E. destruct E as [E1 E2].
  apply Z.ltb_ge in E1. rewrite Z.gtb_ltb in E2. apply Z.ltb_ge in E2.
  pose proof (be32_range l0 l1 l2 l3). lia.
Qed.

(** With a length in range the decoder is at the format magic, if the blob
    reaches that far. *)
Lemma LocateResource_at_magic (l0 l1 l2 l3 : byte) (rest : bytes) :
  blob = xff :: l0 :: l1 :: l2 :: l3 :: rest ->
  1 <= be32 l0 l1 l2 l3 <= 65000 ->
  LocateResource g w zkquorum resource =
  (buf <- slice_from rest (Z.to_nat (be32 l0 l1 l2 l3)) ;;
   magic <- BigEndian_Uint32 buf ;;
   if negb (magic =? pbufMagic) then
     Returns (""%string, 0, Some (ErrMagic resource magic))
   else
     buf <- slice_from buf 4 ;;
     if String.eqb resource (Meta g) then
       let '(meta, err) := UnmarshalMeta w buf in
       match err with
       | Some err => Returns (""%string, 0, Some (ErrDeserializeMeta err))
       | None => located (Server meta)
       end
     else
       let '(master, err) := UnmarshalMaster w buf in
       match err with
       | Some err => Returns (""%string, 0, Some (ErrDeserializeMaster err))
       | None => located (MasterServer master)
       end).
Proof.
  intros -> Hn. unfold LocateResource. rewrite dialed, read.
  cbn [List.length Nat.eqb index nth_error bind negb].
  replace (Byte.eqb xff xff) with true by reflexivity. cbn [negb].
  replace (slice_from (xff :: l0 :: l1 :: l2 :: l3 :: rest) 1)
    with (Returns (l0 :: l1 :: l2 :: l3 :: rest)) by reflexivity.
  cbn [bind]. rewrite BigEndian_Uint32_be32. cbn [bind].
  set (n := be32 l0 l1 l2 l3) in *.
  replace ((n <? 1) || (n >? 65000)) with false.
  2:{ symmetry. apply orb_false_iff. split.
      - apply Z.ltb_ge. lia.
      - rewrite Z.gtb_ltb. apply Z.ltb_ge. lia. }
  assert (Z.to_nat (uint32 (1 + 4 + n)) = (5 + Z.to_nat n)%nat) as ->.
  { unfold uint32. rewrite Z.mod_small by lia. lia. }
  unfold slice_from at 1.
  cbn [List.length Nat.add Nat.leb skipn].
  reflexivity.
Qed.

(** C4. Once the blob has been read, a first byte other than [0xFF], or a
    big-endian metadata length that is 0 or exceeds 65000, or a format magic
    after the metadata that is not "PBUF" read as a big-endian [uint32], makes
    [LocateResource] return a decode error, with the empty host name and the
    port 0. *)
Theorem LocateResource_decode_error :
  bad_first_byte blob \/ bad_metadata_length blob \/ bad_format_magic blob ->
  exists e,
    LocateResource g w zkquorum resource = Returns (""%string, 0, Some e) /\
    fault_of e = Decode.
Proof.
  intros [H | [H | H]].
  - destruct H as (b0 & rest & Hblob & Hb0).
    eexists; split; [ exact (LocateResource_read_first Hblob Hb0) | reflexivity ].
  - destruct H as (b0 & l0 & l1 & l2 & l3 & rest & Hblob & Hn).
    destruct (Byte.byte_eq_dec b0 xff) as [-> | Hb0].
    + eexists; split;
        [ exact (LocateResource_read_length Hblob Hn) | reflexivity ].
    + eexists; split;
        [ exact (LocateResource_read_first Hblob Hb0) | reflexivity ].
  - destruct H as (b0 & l0 & l1 & l2 & l3 & metadata & m0 & m1 & m2 & m3 & rest
                   & Hblob & Hlen & Hmagic).
    destruct (Byte.byte_eq_dec b0 xff) as [-> | Hb0].
    2:{ eexists; split;
          [ exact (LocateResource_read_first Hblob Hb0) | reflexivity ]. }
    pose proof (be32_range l0 l1 l2 l3) as Hr.
    destruct (Z_le_gt_dec 1 (be32 l0 l1 l2 l3)) as [Hlo | Hlo].
    2:{ exists (ErrMetadataLength resource (be32 l0 l1 l2 l3)).
        split; [ | reflexivity ].
        apply (LocateResource_read_length Hblob). left. lia. }
    destruct (Z_le_gt_dec (be32 l0 l1 l2 l3) 65000) as [Hhi | Hhi].
    2:{ exists (ErrMetadataLength resource (be32 l0 l1 l2 l3)).
        split; [ | reflexivity ].
        apply (LocateResource_read_length Hblob). right. lia. }
    exists (ErrMagic resource (be32 m0 m1 m2 m3)). split; [ | reflexivity ].
    rewrite (LocateResource_at_magic Hblob (conj Hlo Hhi)).
    rewrite <- Hlen, Nat2Z.id. unfold slice_from at 1.
    rewrite length_app.
    replace (List.length metadata <=? List.length metadata + _)%nat with true
      by (symmetry; apply Nat.leb_le; lia).
    rewrite skipn_app, skipn_all, Nat.sub_diag. cbn [app skipn bind].
    rewrite BigEndian_Uint32_be32. cbn [bind].
    rewrite pbufMagic_be32.
    destruct (be32 m0 m1 m2 m3 =? be32 "P" "B" "U" "F") eqn:E;
      [ apply Z.eqb_eq in E; contradiction | reflexivity ].
Qed.

(** A blob of the documented shape decodes to the host name of its record and
    to the low 16 bits of its port, whatever the metadata bytes are. *)
Lemma LocateResource_record (l0 l1 l2 l3 : byte) (metadata record : bytes)
    (host : string) (port : Z) :
  blob = xff :: l0 :: l1 :: l2 :: l3 :: metadata ++ bytes_of "PBUF" ++ record ->
  1 <= be32 l0 l1 l2 l3 <= 65000 ->
  Z.of_nat (List.length metadata) = be32 l0 l1 l2 l3 ->
  valid_record g w resource record host port ->
  LocateResource g w zkquorum resource = Returns (host, uint16 port, None).
Proof.
  intros Hblob Hn Hlen Hrec.
  rewrite (LocateResource_at_magic Hblob Hn).
  rewrite <- Hlen, Nat2Z.id. unfold slice_from at 1.
  rewrite length_app.
  replace (List.length metadata <=? List.length metadata + _)%nat with true
    by (symmetry; apply Nat.leb_le; lia).
  rewrite skipn_app, skipn_all, Nat.sub_diag. cbn [app skipn bind].
  change (bytes_of "PBUF" ++ record)
    with ("P"%byte :: "B"%byte :: "U"%byte :: "F"%byte :: record).
  rewrite BigEndian_Uint32_be32. cbn [bind].
  rewrite <- pbufMagic_be32, Z.eqb_refl. cbn [negb].
  replace (slice_from ("P"%byte :: "B"%byte :: "U"%byte :: "F"%byte :: record) 4)
    with (Returns record) by reflexivity.
  cbn [bind]. unfold valid_record in Hrec.
  destruct (String.eqb resource (Meta g)); destruct Hrec as [code ->];
    reflexivity.
Qed.

(** C5. For every well-formed blob, that is [0xFF], a four-byte big-endian
    length in [1,65000], that many metadata bytes of any value, the magic
    "PBUF" and a valid serialized location record (a host name and a port in
    the range of [uint16]), [LocateResource] returns the record's host name and
    port, and no error. *)
Theorem LocateResource_well_formed (l0 l1 l2 l3 : byte)
    (metadata record : bytes) (host : string) (port : Z) :
  blob = xff :: l0 :: l1 :: l2 :: l3 :: metadata ++ bytes_of "PBUF" ++ record ->
  1 <= be32 l0 l1 l2 l3 <= 65000 ->
  Z.of_nat (List.length metadata) = be32 l0 l1 l2 l3 ->
  valid_record g w resource record host port ->
  0 <= port < 2 ^ 16 ->
  LocateResource g w zkquorum resource = Returns (host, port, None).
Proof.
  intros Hblob Hn Hlen Hrec Hport.
  rewrite (@LocateResource_record l0 l1 l2 l3 metadata record host port Hblob Hn Hlen Hrec).
  unfold uint16. rewrite Z.mod_small by exact Hport. reflexivity.
Qed.

(** C8. A blob that was read without error but is empty ends the attempt in
    [log.Fatalf]: the process exits with status 1, so that nothing, neither a
    location nor a decode or connectivity error, is returned to a caller that
    could retry. *)
Theorem LocateResource_empty_blob :
  blob = [] ->
  LocateResource g w zkquorum resource = Exits 1 (was_empty resource) /\
  (forall host port err,
     LocateResource g w zkquorum resource <> Returns (host, port, err)).
Proof.
  intros ->.
  assert (LocateResource g w zkquorum resource = Exits 1 (was_empty resource))
    as E by (unfold LocateResource; rewrite dialed, read; reflexivity).
  split; [ exact E | ]. intros host port err. rewrite E. discriminate.
Qed.

(** C9. After the test for emptiness nothing checks the length of the blob:
    one that starts with [0xFF] and stops before the end of the length field,
    or, with a length in range, before the end of the format magic, makes the
    decoder panic on an access out of bounds; no decode error is returned. *)
Theorem LocateResource_out_of_bounds :
  truncated blob ->
  (exists p, LocateResource g w zkquorum resource = Panics p /\
             (p = IndexOutOfRange \/ p = SliceBoundsOutOfRange)) /\
  (forall host port err,
     LocateResource g w zkquorum resource <> Returns (host, port, err)).
Proof.
  intros H.
  assert (exists p, LocateResource g w zkquorum resource = Panics p /\
                    (p = IndexOutOfRange \/ p = SliceBoundsOutOfRange))
    as (p & E & Hp).
  { destruct H as [(rest & Hblob & Hshort)
                  | (l0 & l1 & l2 & l3 & rest & Hblob & Hn & Hshort)].
    - exists IndexOutOfRange. split; [ | now left ].
      subst blob. unfold LocateResource. rewrite dialed, read.
      cbn [List.length Nat.eqb index nth_error bind negb].
      replace (Byte.eqb xff xff) with true by reflexivity. cbn [negb].
      replace (slice_from (xff :: rest) 1) with (Returns rest) by reflexivity.
      cbn [bind]. rewrite (BigEndian_Uint32_short _ Hshort). reflexivity.
    - rewrite (LocateResource_at_magic Hblob Hn). unfold slice_from at 1.
      destruct (Z.to_nat (be32 l0 l1 l2 l3) <=? List.length rest)%nat eqn:E.
      + exists IndexOutOfRange. split; [ | now left ]. cbn [bind].
        apply Nat.leb_le in E.
        rewrite BigEndian_Uint32_short; [ reflexivity | ].
        rewrite length_skipn. lia.
      + exists SliceBoundsOutOfRange. split; [ reflexivity | now right ]. }
  split; [ exists p; split; assumption | ].
  intros host port err. rewrite E. discriminate.
Qed.

End Located.

(** The theorems at concrete blobs. *)

Lemma LocateResource_decode_error_witness :
  bad_format_magic (example_blob "PBUG") /\
  exists e,
    LocateResource init (example_world (example_blob "PBUG")) "zk1:2181"
      (Meta init) = Returns (""%string, 0, Some e) /\
    fault_of e = Decode.
Proof.
  assert (bad_format_magic (example_blob "PBUG")) as H.
  { exists xff, x00, x00, x00, x02, (bytes_of "id"),
      "P"%byte, "B"%byte, "U"%byte, "G"%byte, (bytes_of "rs1.example.org").
    split; [ reflexivity | split; [ reflexivity | discriminate ] ]. }
  split; [ exact H | ].
  apply (@LocateResource_decode_error init
           (example_world (example_blob "PBUG")) "zk1:2181"%string (Meta init)
           (example_blob "PBUG") eq_refl eq_refl).
  right; right; exact H.
Defined.

Lemma LocateResource_well_formed_witness :
  LocateResource init (example_world (example_blob "PBUF")) "zk1:2181"
    (Master init) = Returns ("rs1.example.org"%string, 16000, None).
Proof.
  apply (@LocateResource_well_formed init
           (example_world (example_blob "PBUF")) "zk1:2181"%string (Master init)
           (example_blob "PBUF") eq_refl eq_refl
           x00 x00 x00 x02 (bytes_of "id") (bytes_of "rs1.example.org")).
  - reflexivity.
  - unfold be32, byte_to_Z; simpl; lia.
  - reflexivity.
  - exists None. reflexivity.
  - lia.
Defined.

Lemma LocateResource_empty_blob_witness :
  LocateResource init (example_world []) "zk1:2181" (Meta init) =
    Exits 1 "/hbase/meta-region-server was empty!" /\
  (forall host port err,
     LocateResource init (example_world []) "zk1:2181" (Meta init) <>
     Returns (host, port, err)).
Proof.
  exact (@LocateResource_empty_blob init (example_world []) "zk1:2181"%string
           (Meta init) [] eq_refl eq_refl eq_refl).
Defined.

Lemma LocateResource_out_of_bounds_witness :
  truncated short_blob /\
  (exists p,
     LocateResource init (example_world short_blob) "zk1:2181" (Meta init) =
       Panics p /\
     (p = IndexOutOfRange \/ p = SliceBoundsOutOfRange)) /\
  (forall host port err,
     LocateResource init (example_world short_blob) "zk1:2181" (Meta init) <>
     Returns (host, port, err)).
Proof.
  assert (truncated short_blob) as H.
  { left. exists [x00]. split; [ reflexivity | simpl; lia ]. }
  split; [ exact H | ].
  exact (@LocateResource_out_of_bounds init (example_world short_blob)
           "zk1:2181"%string (Meta init) short_blob eq_refl eq_refl H).
Defined.

(** The second way to run out of the blob: the length field promises more
    metadata than the blob holds. *)
Example LocateResource_metadata_cut :
  LocateResource init
    (example_world [xff; x00; x00; x00; x09; "i"%byte; "d"%byte])
    "zk1:2181" (Meta init) = Panics SliceBoundsOutOfRange.
Proof. reflexivity. Qed.

(** A port that does not fit [uint16] loses its high bits. *)
Example located_port_truncated :
  located (Some {| HostName := Some "rs1"%string; Port := Some 81556;
                   StartCode := None |}) =
  Returns ("rs1"%string, 16020, None).
Proof. reflexivity. Qed.

(** ** Every outcome of [LocateResource] *)

Lemma byte_to_Z_inj (x y : byte) : byte_to_Z x = byte_to_Z y -> x = y.
Proof.
  unfold byte_to_Z. intros H. apply GoBytesFacts.to_N_inj. lia.
Qed.

Lemma be32_inj (a b c d a' b' c' d' : byte) :
  be32 a b c d = be32 a' b' c' d' -> a = a' /\ b = b' /\ c = c' /\ d = d'.
Proof.
  unfold be32. intros H.
  pose proof (byte_to_Z_range a). pose proof (byte_to_Z_range b).
  pose proof (byte_to_Z_range c). pose proof (byte_to_Z_range d).
  pose proof (byte_to_Z_range a'). pose proof (byte_to_Z_range b').
  pose proof (byte_to_Z_range c'). pose proof (byte_to_Z_range d').
  repeat split; apply byte_to_Z_inj; lia.
Qed.

Lemma record_location_unmarshalled (g : names) (w : world)
    (resource : ResourceName) (record : bytes) :
  record_location g w resource record =
  match unmarshalled g w resource record with
  | (_, Some err) =>
      Returns (""%string, 0, Some (deserialize_error g resource err))
  | (server, None) => located server
  end.
Proof.
  unfold record_location, unmarshalled, deserialize_error.
  destruct (String.eqb resource (Meta g)).
  - destruct (UnmarshalMeta w record) as [m [err | ]]; reflexivity.
  - destruct (UnmarshalMaster w record) as [m [err | ]]; reflexivity.
Qed.

Lemma deserialize_error_fault (g : names) (resource : ResourceName)
    (err : string) :
  fault_of (deserialize_error g resource err) = Decode.
Proof.
  unfold deserialize_error. now destruct (String.eqb resource (Meta g)).
Qed.

(** A server that lacks nothing that [LocateResource] reads. *)
Lemma located_cases (server : option ServerName) :
  (exists s host port,
     server = Some s /\ HostName s = Some host /\ Port s = Some port /\
     located server = Returns (host, uint16 port, None)) \/
  ((server = None \/
    exists s, server = Some s /\ (HostName s = None \/ Port s = None)) /\
   located server = Panics NilDereference).
Proof.
  destruct server as [s | ]; [ | right; split; [ now left | reflexivity ] ].
  destruct (HostName s) as [host | ] eqn:Eh.
  - destruct (Port s) as [port | ] eqn:Ep.
    + left. exists s, host, port. unfold located. simpl.
      rewrite Eh, Ep. simpl. auto.
    + right. split; [ right; exists s; auto | ].
      unfold located. simpl. rewrite Eh, Ep. reflexivity.
  - right. split; [ right; exists s; auto | ].
    unfold located. simpl. rewrite Eh. reflexivity.
Qed.

(** Every blob is empty, or starts with a wrong byte, or is cut short, or has
    a length out of range, or has the whole envelope. *)
Lemma blob_shapes (blob : bytes) :
  blob = [] \/ bad_first_byte blob \/ truncated blob \/
  length_out_of_range blob \/
  exists m0 m1 m2 m3 record, enveloped blob m0 m1 m2 m3 record.
Proof.
  destruct blob as [ | b0 rest ]; [ now left | right ].
  destruct (Byte.byte_eq_dec b0 xff) as [-> | Hb0];
    [ right | left; now exists b0, rest ].
  destruct rest as [ | l0 [ | l1 [ | l2 [ | l3 rest ] ] ] ];
    try (left; left; eexists; split; [ reflexivity | simpl; lia ]).
  pose proof (be32_range l0 l1 l2 l3) as Hr.
  destruct (Z_le_gt_dec 1 (be32 l0 l1 l2 l3)) as [Hlo | Hlo].
  2:{ right; left. exists l0, l1, l2, l3, rest. split; [ reflexivity | lia ]. }
  destruct (Z_le_gt_dec (be32 l0 l1 l2 l3) 65000) as [Hhi | Hhi].
  2:{ right; left. exists l0, l1, l2, l3, rest. split; [ reflexivity | lia ]. }
  destruct (Z_lt_ge_dec (Z.of_nat (List.length rest)) (be32 l0 l1 l2 l3 + 4))
    as [Hshort | Hlong].
  { left; right. exists l0, l1, l2, l3, rest. auto. }
  right; right.
  set (n := Z.to_nat (be32 l0 l1 l2 l3)).
  assert (List.length (skipn n rest) >= 4)%nat as Htail
    by (rewrite length_skipn; lia).
  destruct (skipn n rest) as [ | m0 [ | m1 [ | m2 [ | m3 record ] ] ] ] eqn:E;
    simpl in Htail; try lia.
  exists m0, m1, m2, m3, record, l0, l1, l2, l3, (firstn n rest).
  split; [ | split; [ lia | ] ].
  - now rewrite <- E, firstn_skipn.
  - rewrite length_firstn. lia.
Qed.

Section Outcomes.

Variables (g : names) (w : world) (zkquorum : string) (resource : ResourceName).
Variable blob : bytes.
Hypothesis dialed : Dial w zkquorum sessionTimeout = None.
Hypothesis read : Get w zkquorum resource = (blob, None).

Lemma LocateResource_empty :
  blob = [] ->
  LocateResource g w zkquorum resource = Exits 1 (was_empty resource).
Proof.
  intros ->. unfold LocateResource. now rewrite dialed, read.
Qed.

Lemma LocateResource_bad_length :
  length_out_of_range blob ->
  exists n, LocateResource g w zkquorum resource =
            Returns (""%string, 0, Some (ErrMetadataLength resource n)).
Proof.
  intros (l0 & l1 & l2 & l3 & rest & Hblob & Hn). eexists.
  exact (@LocateResource_read_length g w zkquorum resource blob dialed read
           l0 l1 l2 l3 rest Hblob Hn).
Qed.

Lemma LocateResource_truncated :
  truncated blob ->
  exists p, LocateResource g w zkquorum resource = Panics p /\
            (p = IndexOutOfRange \/ p = SliceBoundsOutOfRange).
Proof.
  intros [(rest & Hblob & Hshort)
         | (l0 & l1 & l2 & l3 & rest & Hblob & Hn & Hshort)].
  - exists IndexOutOfRange. split; [ | now left ].
    subst blob. unfold LocateResource. rewrite dialed, read.
    cbn [List.length Nat.eqb index nth_error bind negb].
    replace (Byte.eqb xff xff) with true by reflexivity. cbn [negb].
    replace (slice_from (xff :: rest) 1) with (Returns rest) by reflexivity.
    cbn [bind]. rewrite (BigEndian_Uint32_short _ Hshort). reflexivity.
  - rewrite (@LocateResource_at_magic g w zkquorum resource blob dialed read
               l0 l1 l2 l3 rest Hblob Hn).
    unfold slice_from at 1.
    destruct (Z.to_nat (be32 l0 l1 l2 l3) <=? List.length rest)%nat eqn:E.
    + exists IndexOutOfRange. split; [ | now left ]. cbn [bind].
      apply Nat.leb_le in E.
      rewrite BigEndian_Uint32_short; [ reflexivity | ].
      rewrite length_skipn. lia.
    + exists SliceBoundsOutOfRange. split; [ reflexivity | now right ].
Qed.

(** With the whole envelope the format magic decides: the record is decoded,
    or the magic is reported. *)
Lemma LocateResource_enveloped (m0 m1 m2 m3 : byte) (record : bytes) :
  enveloped blob m0 m1 m2 m3 record ->
  LocateResource g w zkquorum resource =
  if be32 m0 m1 m2 m3 =? pbufMagic
  then record_location g w resource record
  else Returns (""%string, 0, Some (ErrMagic resource (be32 m0 m1 m2 m3))).
Proof.
  intros (l0 & l1 & l2 & l3 & metadata & Hblob & Hn & Hlen).
  rewrite (@LocateResource_at_magic g w zkquorum resource blob dialed read
             l0 l1 l2 l3 _ Hblob Hn).
  rewrite <- Hlen, Nat2Z.id. unfold slice_from at 1.
  rewrite length_app.
  replace (List.length metadata <=? List.length metadata + _)%nat with true
    by (symmetry; apply Nat.leb_le; lia).
  rewrite skipn_app, skipn_all, Nat.sub_diag. cbn [app skipn bind].
  rewrite BigEndian_Uint32_be32. cbn [bind].
  destruct (be32 m0 m1 m2 m3 =? pbufMagic); [ | reflexivity ].
  reflexivity.
Qed.

(** The outcomes of a blob that was read, by the shape of the blob. *)
Lemma LocateResource_outcomes :
  (blob = [] /\
   LocateResource g w zkquorum resource = Exits 1 (was_empty resource)) \/
  (exists e,
     LocateResource g w zkquorum resource = Returns (""%string, 0, Some e) /\
     fault_of e = Decode) \/
  (truncated blob /\
   exists p, LocateResource g w zkquorum resource = Panics p /\
             (p = IndexOutOfRange \/ p = SliceBoundsOutOfRange)) \/
  (exists record server,
     enveloped blob "P" "B" "U" "F" record /\
     unmarshalled g w resource record = (server, None) /\
     LocateResource g w zkquorum resource = located server).
Proof.
  destruct (blob_shapes blob)
    as [H | [H | [H | [H | (m0 & m1 & m2 & m3 & record & H)]]]].
  - left. split; [ exact H | exact (LocateResource_empty H) ].
  - right; left. destruct H as (b0 & rest & Hblob & Hb0).
    exists (ErrFirstByte resource b0). split; [ | reflexivity ].
    exact (@LocateResource_read_first g w zkquorum resource blob dialed read
             b0 rest Hblob Hb0).
  - right; right; left. split; [ exact H | exact (LocateResource_truncated H) ].
  - right; left. destruct (LocateResource_bad_length H) as [n Hn].
    exists (ErrMetadataLength resource n). split; [ exact Hn | reflexivity ].
  - rewrite (LocateResource_enveloped H).
    destruct (be32 m0 m1 m2 m3 =? pbufMagic) eqn:E.
    + apply Z.eqb_eq in E. rewrite pbufMagic_be32 in E.
      apply be32_inj in E. destruct E as (-> & -> & -> & ->).
      rewrite record_location_unmarshalled.
      destruct (unmarshalled g w resource record) as [server [err | ]] eqn:Eu.
      * right; left. eexists. split; [ reflexivity | ].
        apply deserialize_error_fault.
      * right; right; right. exists record, server. auto.
    + right; left. eexists. split; reflexivity.
Qed.

End Outcomes.

(** ** [LocateResource] in any world *)

Lemma LocateResource_not_dialed (g : names) (w : world) (zkquorum : string)
    (resource : ResourceName) (err : string) :
  Dial w zkquorum sessionTimeout = Some err ->
  LocateResource g w zkquorum resource =
  Returns (""%string, 0, Some (ErrConnecting zkquorum err)).
Proof. intros H. unfold LocateResource. now rewrite H. Qed.

Lemma LocateResource_not_read (g : names) (w : world) (zkquorum : string)
    (resource : ResourceName) (blob : bytes) (err : string) :
  Dial w zkquorum sessionTimeout = None ->
  Get w zkquorum resource = (blob, Some err) ->
  LocateResource g w zkquorum resource =
  Returns (""%string, 0, Some (ErrReadZnode resource err)).
Proof. intros Hd Hr. unfold LocateResource. now rewrite Hd, Hr. Qed.

(** All that [LocateResource] can do: report that ZooKeeper could not be
    reached or read, or, with the blob read, one of the outcomes above. *)
Lemma LocateResource_all (g : names) (w : world) (zkquorum : string)
    (resource : ResourceName) :
  (exists e,
     LocateResource g w zkquorum resource = Returns (""%string, 0, Some e) /\
     fault_of e = Connectivity /\
     (Dial w zkquorum sessionTimeout <> None \/
      snd (Get w zkquorum resource) <> None)) \/
  (Dial w zkquorum sessionTimeout = None /\
   snd (Get w zkquorum resource) = None /\
   ((fst (Get w zkquorum resource) = [] /\
     LocateResource g w zkquorum resource = Exits 1 (was_empty resource)) \/
    (exists e,
       LocateResource g w zkquorum resource = Returns (""%string, 0, Some e) /\
       fault_of e = Decode) \/
    (truncated (fst (Get w zkquorum resource)) /\
     exists p, LocateResource g w zkquorum resource = Panics p /\
               (p = IndexOutOfRange \/ p = SliceBoundsOutOfRange)) \/
    (exists record server,
       enveloped (fst (Get w zkquorum resource)) "P" "B" "U" "F" record /\
       unmarshalled g w resource record = (server, None) /\
       LocateResource g w zkquorum resource = located server))).
Proof.
  destruct (Dial w zkquorum sessionTimeout) as [err | ] eqn:Hd.
  - left. eexists. split; [ exact (LocateResource_not_dialed g _ _ resource Hd) | ].
    split; [ reflexivity | left; discriminate ].
  - destruct (Get w zkquorum resource) as [blob [err | ]] eqn:Hr.
    + left. eexists.
      split; [ exact (LocateResource_not_read g _ _ _ Hd Hr) | ].
      split; [ reflexivity | right; discriminate ].
    + right. split; [ reflexivity | split; [ reflexivity | ] ].
      exact (@LocateResource_outcomes g w zkquorum resource blob Hd Hr).
Qed.

(** X1. When [LocateResource] returns a location and no error, ZooKeeper was
    reached and read, the blob had the whole envelope with the magic "PBUF",
    and the decoder that the resource selects gave, without error, a server
    with the host name returned and with a port whose low 16 bits are the
    port returned. *)
Theorem LocateResource_success_inversion (g : names) (w : world)
    (zkquorum : string) (resource : ResourceName) (host : string) (port : Z) :
  LocateResource g w zkquorum resource = Returns (host, port, None) ->
  Dial w zkquorum sessionTimeout = None /\
  snd (Get w zkquorum resource) = None /\
  exists record server p,
    enveloped (fst (Get w zkquorum resource)) "P" "B" "U" "F" record /\
    unmarshalled g w resource record = (Some server, None) /\
    HostName server = Some host /\ Port server = Some p /\
    port = p mod 2 ^ 16.
Proof.
  intros H.
  destruct (LocateResource_all g w zkquorum resource)
    as [(e & E & _) | (Hd & Hr & [[_ E] | [(e & E & _) | [(_ & p & E & _)
       | (record & server & Henv & Hu & E)]]])];
    rewrite E in H; try discriminate.
  split; [ exact Hd | split; [ exact Hr | ] ].
  destruct (located_cases server)
    as [(s & h & p & -> & Hh & Hp & El) | [_ El]];
    rewrite El in H; [ | discriminate ].
  injection H as <- <-. exists record, s, p. auto.
Qed.

Lemma LocateResource_success_inversion_witness :
  Dial (example_world (example_blob "PBUF")) "zk1:2181" sessionTimeout = None /\
  snd (Get (example_world (example_blob "PBUF")) "zk1:2181" (Meta init)) =
    None /\
  exists record server p,
    enveloped
      (fst (Get (example_world (example_blob "PBUF")) "zk1:2181" (Meta init)))
      "P" "B" "U" "F" record /\
    unmarshalled init (example_world (example_blob "PBUF")) (Meta init) record =
      (Some server, None) /\
    HostName server = Some "rs1.example.org"%string /\
    Port server = Some p /\ 16020 = p mod 2 ^ 16.
Proof.
  exact (@LocateResource_success_inversion init
           (example_world (example_blob "PBUF")) "zk1:2181"%string (Meta init)
           "rs1.example.org"%string 16020 eq_refl).
Defined.

(** X2. [LocateResource] ends the process in exactly one case: ZooKeeper was
    reached, the znode was read without error, and its value is empty; the
    exit status is then 1. A failed read of an empty value is an error
    returned, not an exit. *)
Theorem LocateResource_exits_iff (g : names) (w : world) (zkquorum : string)
    (resource : ResourceName) (code : Z) (message : string) :
  LocateResource g w zkquorum resource = Exits code message <->
  Dial w zkquorum sessionTimeout = None /\
  Get w zkquorum resource = ([], None) /\
  code = 1 /\ message = was_empty resource.
Proof.
  split.
  - intros H.
    destruct (LocateResource_all g w zkquorum resource)
      as [(e & E & _) | (Hd & Hr & [[Hb E] | [(e & E & _) | [(_ & p & E & _)
         | (record & server & _ & _ & E)]]])];
      rewrite E in H; try discriminate.
    + injection H as <- <-.
      destruct (Get w zkquorum resource) as [blob err]. simpl in *.
      now subst.
    + destruct (located_cases server)
        as [(s & h & p & _ & _ & _ & El) | [_ El]];
        rewrite El in H; discriminate.
  - intros (Hd & Hr & -> & ->).
    exact (@LocateResource_empty g w zkquorum resource [] Hd Hr eq_refl).
Qed.

(** X3. [LocateResource] panics on an access out of bounds exactly when the
    blob was read and, starting with [0xFF], stops before the end of its
    length field or, with a length in range, before the end of its format
    magic. *)
Theorem LocateResource_bounds_panic_iff (g : names) (w : world)
    (zkquorum : string) (resource : ResourceName) :
  (LocateResource g w zkquorum resource = Panics IndexOutOfRange \/
   LocateResource g w zkquorum resource = Panics SliceBoundsOutOfRange) <->
  Dial w zkquorum sessionTimeout = None /\
  snd (Get w zkquorum resource) = None /\
  truncated (fst (Get w zkquorum resource)).
Proof.
  split.
  - intros H.
    destruct (LocateResource_all g w zkquorum resource)
      as [(e & E & _) | (Hd & Hr & [[Hb E] | [(e & E & _) | [(Ht & _)
         | (record & server & _ & _ & E)]]])];
      try (rewrite E in H; destruct H; discriminate).
    + auto.
    + destruct (located_cases server)
        as [(s & h & p & _ & _ & _ & El) | [_ El]];
        rewrite E, El in H; destruct H; discriminate.
  - intros (Hd & Hr & Ht).
    destruct (Get w zkquorum resource) as [blob err] eqn:Hg. simpl in *.
    subst err.
    destruct (@LocateResource_truncated g w zkquorum resource blob Hd Hg Ht)
      as (p & E & [-> | ->]); auto.
Qed.

(** X4. [LocateResource] panics on a nil pointer exactly when the blob has
    the whole envelope with the magic "PBUF" and the decoder gave, without
    error, a message with no server, or a server without host name or
    without port: the pointers are read without a test. *)
Theorem LocateResource_nil_panic_iff (g : names) (w : world)
    (zkquorum : string) (resource : ResourceName) :
  LocateResource g w zkquorum resource = Panics NilDereference <->
  Dial w zkquorum sessionTimeout = None /\
  snd (Get w zkquorum resource) = None /\
  exists record server,
    enveloped (fst (Get w zkquorum resource)) "P" "B" "U" "F" record /\
    unmarshalled g w resource record = (server, None) /\
    (server = None \/
     exists s, server = Some s /\ (HostName s = None \/ Port s = None)).
Proof.
  split.
  - intros H.
    destruct (LocateResource_all g w zkquorum resource)
      as [(e & E & _) | (Hd & Hr & [[Hb E] | [(e & E & _) | [(_ & p & E & Hp)
         | (record & server & Henv & Hu & E)]]])];
      rewrite E in H; try discriminate.
    + injection H as ->. destruct Hp; discriminate.
    + split; [ exact Hd | split; [ exact Hr | ] ]. exists record, server.
      destruct (located_cases server)
        as [(s & h & p & _ & _ & _ & El) | [Hnil El]];
        rewrite El in H; [ discriminate | auto ].
  - intros (Hd & Hr & record & server & Henv & Hu & Hnil).
    destruct (Get w zkquorum resource) as [blob err] eqn:Hg. simpl in *.
    subst err.
    rewrite (@LocateResource_enveloped g w zkquorum resource blob Hd Hg
               _ _ _ _ record Henv).
    rewrite <- pbufMagic_be32, Z.eqb_refl, record_location_unmarshalled, Hu.
    destruct (located_cases server)
      as [(s & h & p & Es & Hh & Hp & _) | [_ El]]; [ | exact El ].
    exfalso. destruct Hnil as [-> | (s' & -> & [Hn | Hn])];
      [ discriminate | | ]; injection Es as <-; congruence.
Qed.

(** X5. Whatever [LocateResource] returns, the port is in the range of
    [uint16], and an error comes with the empty host name and the port 0,
    never with a part of a location. *)
Theorem LocateResource_returned (g : names) (w : world) (zkquorum : string)
    (resource : ResourceName) (host : string) (port : Z)
    (err : option error) :
  LocateResource g w zkquorum resource = Returns (host, port, err) ->
  0 <= port < 2 ^ 16 /\
  (err <> None -> host = ""%string /\ port = 0).
Proof.
  intros H.
  destruct (LocateResource_all g w zkquorum resource)
    as [(e & E & _) | (Hd & Hr & [[_ E] | [(e & E & _) | [(_ & p & E & _)
       | (record & server & _ & _ & E)]]])];
    rewrite E in H; try discriminate;
    try (injection H as <- <- <-; split; [ lia | auto ]).
  destruct (located_cases server)
    as [(s & h & p & _ & _ & _ & El) | [_ El]];
    rewrite El in H; [ | discriminate ].
  injection H as <- <- <-. split; [ | congruence ].
  unfold uint16. apply Z.mod_pos_bound. lia.
Qed.

Lemma LocateResource_returned_witness :
  LocateResource init (example_world (example_blob "PBUG")) "zk1:2181"
    (Meta init) =
    Returns (""%string, 0, Some (ErrMagic (Meta init) 1346524487)) /\
  0 <= 0 < 2 ^ 16 /\
  (Some (ErrMagic (Meta init) 1346524487) <> None ->
   ""%string = ""%string /\ 0 = 0).
Proof.
  split; [ reflexivity | ].
  exact (@LocateResource_returned init (example_world (example_blob "PBUG"))
           "zk1:2181"%string (Meta init) ""%string 0
           (Some (ErrMagic (Meta init) 1346524487)) eq_refl).
Defined.

(** X6. [LocateResource] returns a connectivity error exactly when the
    connection or the read of the znode failed; the value read with the
    failure, be it empty or malformed, is not looked at. *)
Theorem LocateResource_connectivity_iff (g : names) (w : world)
    (zkquorum : string) (resource : ResourceName) :
  (exists e,
     LocateResource g w zkquorum resource = Returns (""%string, 0, Some e) /\
     fault_of e = Connectivity) <->
  Dial w zkquorum sessionTimeout <> None \/
  snd (Get w zkquorum resource) <> None.
Proof.
  split.
  - intros (e & H & Hf).
    destruct (LocateResource_all g w zkquorum resource)
      as [(e' & E & _ & Hc) | (Hd & Hr & [[_ E] | [(e' & E & Hf')
         | [(_ & p & E & _) | (record & server & _ & _ & E)]]])];
      rewrite E in H; try discriminate.
    + exact Hc.
    + injection H as ->. congruence.
    + destruct (located_cases server)
        as [(s & h & p & _ & _ & _ & El) | [_ El]];
        rewrite El in H; discriminate.
  - intros H.
    destruct (Dial w zkquorum sessionTimeout) as [err | ] eqn:Hd.
    + eexists.
      split; [ exact (LocateResource_not_dialed g _ _ resource Hd) | ].
      reflexivity.
    + destruct (Get w zkquorum resource) as [blob [err | ]] eqn:Hr.
      * eexists.
        split; [ exact (LocateResource_not_read g _ _ _ Hd Hr) | ].
        reflexivity.
      * simpl in H. destruct H; congruence.
Qed.

(** X7. A record that the decoder rejects, after a whole envelope with the
    magic "PBUF", gives the error of deserialization of the kind of the
    resource, with the empty host name and the port 0. *)
Theorem LocateResource_malformed_record (g : names) (w : world)
    (zkquorum : string) (resource : ResourceName) (blob record : bytes)
    (err : string) :
  Dial w zkquorum sessionTimeout = None ->
  Get w zkquorum resource = (blob, None) ->
  enveloped blob "P" "B" "U" "F" record ->
  snd (unmarshalled g w resource record) = Some err ->
  LocateResource g w zkquorum resource =
    Returns (""%string, 0, Some (deserialize_error g resource err)) /\
  fault_of (deserialize_error g resource err) = Decode.
Proof.
  intros Hd Hr Henv Hu. split; [ | apply deserialize_error_fault ].
  rewrite (@LocateResource_enveloped g w zkquorum resource blob Hd Hr
             _ _ _ _ record Henv).
  rewrite <- pbufMagic_be32, Z.eqb_refl, record_location_unmarshalled.
  destruct (unmarshalled g w resource record) as [server e]. simpl in Hu.
  now subst e.
Qed.

Lemma example_blob_enveloped :
  enveloped (example_blob "PBUF") "P" "B" "U" "F" (bytes_of "rs1.example.org").
Proof.
  exists x00, x00, x00, x02, (bytes_of "id").
  split; [ reflexivity | ]. split; [ | reflexivity ].
  unfold be32, byte_to_Z; simpl; lia.
Qed.

Lemma LocateResource_malformed_record_witness :
  LocateResource init (garbled_world (example_blob "PBUF")) "zk1:2181"
    (Master init) =
    Returns (""%string, 0, Some (ErrDeserializeMaster "unexpected EOF")) /\
  fault_of (ErrDeserializeMaster "unexpected EOF") = Decode.
Proof.
  exact (@LocateResource_malformed_record init
           (garbled_world (example_blob "PBUF")) "zk1:2181"%string
           (Master init) (example_blob "PBUF") (bytes_of "rs1.example.org")
           "unexpected EOF"%string eq_refl eq_refl example_blob_enveloped
           eq_refl).
Defined.

(** X8. The port is converted to [uint16] without a test: a record whose port
    does not fit 16 bits gives a location with another port, the low 16 bits
    of the port of the record. *)
Theorem LocateResource_port_wraps (g : names) (w : world)
    (zkquorum : string) (resource : ResourceName) (blob record : bytes)
    (server : ServerName) (host : string) (port : Z) :
  Dial w zkquorum sessionTimeout = None ->
  Get w zkquorum resource = (blob, None) ->
  enveloped blob "P" "B" "U" "F" record ->
  unmarshalled g w resource record = (Some server, None) ->
  HostName server = Some host -> Port server = Some port ->
  2 ^ 16 <= port ->
  LocateResource g w zkquorum resource =
    Returns (host, port mod 2 ^ 16, None) /\
  port mod 2 ^ 16 <> port.
Proof.
  intros Hd Hr Henv Hu Hh Hp Hwide. split.
  - rewrite (@LocateResource_enveloped g w zkquorum resource blob Hd Hr
               _ _ _ _ record Henv).
    rewrite <- pbufMagic_be32, Z.eqb_refl, record_location_unmarshalled, Hu.
    unfold located. simpl. rewrite Hh, Hp. reflexivity.
  - pose proof (Z.mod_pos_bound port (2 ^ 16)). lia.
Qed.

Lemma LocateResource_port_wraps_witness :
  LocateResource init (port_world (example_blob "PBUF") (Some 81556))
    "zk1:2181" (Meta init) =
    Returns ("rs1.example.org"%string, 81556 mod 2 ^ 16, None) /\
  81556 mod 2 ^ 16 <> 81556.
Proof.
  apply (@LocateResource_port_wraps init
           (port_world (example_blob "PBUF") (Some 81556)) "zk1:2181"%string
           (Meta init) (example_blob "PBUF") (bytes_of "rs1.example.org")
           {| HostName := Some "rs1.example.org"%string; Port := Some 81556;
              StartCode := None |}
           "rs1.example.org"%string 81556 eq_refl eq_refl
           example_blob_enveloped eq_refl eq_refl eq_refl).
  lia.
Defined.

(** X9. The metadata are skipped, contents and length: two blobs with whole
    envelopes, the same format magic and the same record give the same
    outcome, whatever their metadata, in worlds with the same decoders. *)
Theorem LocateResource_skips_metadata (g : names) (w1 w2 : world)
    (zkquorum : string) (resource : ResourceName) (blob1 blob2 : bytes)
    (m0 m1 m2 m3 : byte) (record : bytes) :
  Dial w1 zkquorum sessionTimeout = None ->
  Dial w2 zkquorum sessionTimeout = None ->
  Get w1 zkquorum resource = (blob1, None) ->
  Get w2 zkquorum resource = (blob2, None) ->
  UnmarshalMeta w1 record = UnmarshalMeta w2 record ->
  UnmarshalMaster w1 record = UnmarshalMaster w2 record ->
  enveloped blob1 m0 m1 m2 m3 record ->
  enveloped blob2 m0 m1 m2 m3 record ->
  LocateResource g w1 zkquorum resource =
  LocateResource g w2 zkquorum resource.
Proof.
  intros Hd1 Hd2 Hr1 Hr2 Hmeta Hmaster H1 H2.
  rewrite (@LocateResource_enveloped g w1 zkquorum resource blob1 Hd1 Hr1
             _ _ _ _ record H1).
  rewrite (@LocateResource_enveloped g w2 zkquorum resource blob2 Hd2 Hr2
             _ _ _ _ record H2).
  unfold record_location. now rewrite Hmeta, Hmaster.
Qed.

Lemma other_metadata_blob_enveloped :
  enveloped other_metadata_blob "P" "B" "U" "F" (bytes_of "rs1.example.org").
Proof.
  exists x00, x00, x00, x05, (bytes_of "12345").
  split; [ reflexivity | ]. split; [ | reflexivity ].
  unfold be32, byte_to_Z; simpl; lia.
Qed.

Lemma LocateResource_skips_metadata_witness :
  LocateResource init (example_world (example_blob "PBUF")) "zk1:2181"
    (Meta init) =
  LocateResource init (example_world other_metadata_blob) "zk1:2181"
    (Meta init).
Proof.
  exact (@LocateResource_skips_metadata init
           (example_world (example_blob "PBUF"))
           (example_world other_metadata_blob) "zk1:2181"%string (Meta init)
           (example_blob "PBUF") other_metadata_blob "P" "B" "U" "F"
           (bytes_of "rs1.example.org") eq_refl eq_refl eq_refl eq_refl
           eq_refl eq_refl example_blob_enveloped
           other_metadata_blob_enveloped).
Defined.

(** ** The names that [SetZnodeRoot] sets *)

Lemma append_inj_l (a b c : string) :
  (a ++ b)%string = (a ++ c)%string -> b = c.
Proof.
  induction a as [ | x a IH ]; simpl; intros H; [ exact H | ].
  injection H as H. exact (IH H).
Qed.

Lemma SetZnodeRoot_distinct (name : string) :
  Meta (SetZnodeRoot name) <> Master (SetZnodeRoot name).
Proof.
  unfold SetZnodeRoot, MetaTemplate, MasterTemplate. simpl. intros H.
  injection H as H. apply append_inj_l in H. discriminate.
Qed.

(** X10. Whatever the root that [SetZnodeRoot] was given, the two names it
    sets differ, so that [LocateResource] decodes the znode of the master as
    a master record and the znode of the meta region as a meta record, never
    one as the other. *)
Theorem LocateResource_after_SetZnodeRoot (name : string) (w : world)
    (zkquorum : string) (blob record : bytes) :
  Meta (SetZnodeRoot name) <> Master (SetZnodeRoot name) /\
  (Dial w zkquorum sessionTimeout = None ->
   enveloped blob "P" "B" "U" "F" record ->
   (Get w zkquorum (Master (SetZnodeRoot name)) = (blob, None) ->
    LocateResource (SetZnodeRoot name) w zkquorum
      (Master (SetZnodeRoot name)) =
    match UnmarshalMaster w record with
    | (_, Some err) => Returns (""%string, 0, Some (ErrDeserializeMaster err))
    | (master, None) => located (MasterServer master)
    end) /\
   (Get w zkquorum (Meta (SetZnodeRoot name)) = (blob, None) ->
    LocateResource (SetZnodeRoot name) w zkquorum
      (Meta (SetZnodeRoot name)) =
    match UnmarshalMeta w record with
    | (_, Some err) => Returns (""%string, 0, Some (ErrDeserializeMeta err))
    | (meta, None) => located (Server meta)
    end)).
Proof.
  split; [ apply SetZnodeRoot_distinct | ]. intros Hd Henv. split; intros Hr.
  - rewrite (@LocateResource_enveloped _ w zkquorum _ blob Hd Hr
               _ _ _ _ record Henv).
    rewrite <- pbufMagic_be32, Z.eqb_refl. unfold record_location.
    destruct (String.eqb (Master (SetZnodeRoot name))
                         (Meta (SetZnodeRoot name))) eqn:E.
    + apply String.eqb_eq in E. symmetry in E.
      now apply SetZnodeRoot_distinct in E.
    + destruct (UnmarshalMaster w record) as [m [err | ]]; reflexivity.
  - rewrite (@LocateResource_enveloped _ w zkquorum _ blob Hd Hr
               _ _ _ _ record Henv).
    rewrite <- pbufMagic_be32, Z.eqb_refl. unfold record_location.
    rewrite String.eqb_refl.
    destruct (UnmarshalMeta w record) as [m [err | ]]; reflexivity.
Qed.

(** X20. Every decode error that [LocateResource] returns tells what is wrong
    with the blob: the first byte that is not [0xFF], the length that is 0 or
    above 65000, the format magic that is not "PBUF" behind a whole envelope,
    or the error of the decoder for a record behind a right envelope. *)
Theorem LocateResource_error_inversion (g : names) (w : world)
    (zkquorum : string) (resource : ResourceName) (blob : bytes)
    (host : string) (port : Z) (e : error) :
  Dial w zkquorum sessionTimeout = None ->
  Get w zkquorum resource = (blob, None) ->
  LocateResource g w zkquorum resource = Returns (host, port, Some e) ->
  (exists b0 rest,
     blob = b0 :: rest /\ b0 <> xff /\ e = ErrFirstByte resource b0) \/
  (exists l0 l1 l2 l3 rest,
     blob = xff :: l0 :: l1 :: l2 :: l3 :: rest /\
     (be32 l0 l1 l2 l3 = 0 \/ be32 l0 l1 l2 l3 > 65000) /\
     e = ErrMetadataLength resource (be32 l0 l1 l2 l3)) \/
  (exists m0 m1 m2 m3 record,
     enveloped blob m0 m1 m2 m3 record /\
     be32 m0 m1 m2 m3 <> pbufMagic /\
     e = ErrMagic resource (be32 m0 m1 m2 m3)) \/
  (exists record err,
     enveloped blob "P" "B" "U" "F" record /\
     snd (unmarshalled g w resource record) = Some err /\
     e = deserialize_error g resource err).
Proof.
  intros Hd Hr H.
  destruct (blob_shapes blob)
    as [Hs | [Hs | [Hs | [Hs | (m0 & m1 & m2 & m3 & record & Hs)]]]].
  - rewrite (@LocateResource_empty g w zkquorum resource blob Hd Hr Hs) in H.
    discriminate.
  - destruct Hs as (b0 & rest & Hblob & Hb0).
    rewrite (@LocateResource_read_first g w zkquorum resource blob Hd Hr
               b0 rest Hblob Hb0) in H.
    injection H as _ _ <-. left. now exists b0, rest.
  - destruct (@LocateResource_truncated g w zkquorum resource blob Hd Hr Hs)
      as (p & E & _).
    rewrite E in H. discriminate.
  - destruct Hs as (l0 & l1 & l2 & l3 & rest & Hblob & Hn).
    rewrite (@LocateResource_read_length g w zkquorum resource blob Hd Hr
               l0 l1 l2 l3 rest Hblob Hn) in H.
    injection H as _ _ <-. right; left. now exists l0, l1, l2, l3, rest.
  - rewrite (@LocateResource_enveloped g w zkquorum resource blob Hd Hr
               m0 m1 m2 m3 record Hs) in H.
    destruct (be32 m0 m1 m2 m3 =? pbufMagic) eqn:E.
    + apply Z.eqb_eq in E. rewrite pbufMagic_be32 in E.
      apply be32_inj in E. destruct E as (-> & -> & -> & ->).
      rewrite record_location_unmarshalled in H.
      destruct (unmarshalled g w resource record) as [server [err | ]] eqn:Eu.
      * injection H as _ _ <-. right; right; right. exists record, err.
        rewrite Eu. auto.
      * destruct (located_cases server)
          as [(s & h & p & _ & _ & _ & El) | [_ El]];
          rewrite El in H; discriminate.
    + apply Z.eqb_neq in E. injection H as _ _ <-.
      right; right; left. now exists m0, m1, m2, m3, record.
Qed.

Lemma LocateResource_error_inversion_witness :
  (exists b0 rest,
     example_blob "PBUG" = b0 :: rest /\ b0 <> xff /\
     ErrMagic (Meta init) 1346524487 = ErrFirstByte (Meta init) b0) \/
  (exists l0 l1 l2 l3 rest,
     example_blob "PBUG" = xff :: l0 :: l1 :: l2 :: l3 :: rest /\
     (be32 l0 l1 l2 l3 = 0 \/ be32 l0 l1 l2 l3 > 65000) /\
     ErrMagic (Meta init) 1346524487 =
       ErrMetadataLength (Meta init) (be32 l0 l1 l2 l3)) \/
  (exists m0 m1 m2 m3 record,
     enveloped (example_blob "PBUG") m0 m1 m2 m3 record /\
     be32 m0 m1 m2 m3 <> pbufMagic /\
     ErrMagic (Meta init) 1346524487 =
       ErrMagic (Meta init) (be32 m0 m1 m2 m3)) \/
  (exists record err,
     enveloped (example_blob "PBUG") "P" "B" "U" "F" record /\
     snd (unmarshalled init (example_world (example_blob "PBUG")) (Meta init)
            record) = Some err /\
     ErrMagic (Meta init) 1346524487 = deserialize_error init (Meta init) err).
Proof.
  exact (@LocateResource_error_inversion init
           (example_world (example_blob "PBUG")) "zk1:2181"%string (Meta init)
           (example_blob "PBUG") ""%string 0 (ErrMagic (Meta init) 1346524487)
           eq_refl eq_refl eq_refl).
Defined.

End ZkFacts.

(** ** Package hrpc: the two shapes of a serialized scan *)

Module HrpcFacts.

Import hrpc.

Section Serialize.

(** The parameters of the model of [Scan]. *)
Variables (Context RegionInfo : Type).
Variable regionSpecifier : base Context RegionInfo -> option pb.RegionSpecifier.
Variable familiesToColumn : families_map -> list pb.Column.
Variable Marshal : pb.ScanRequest -> bytes * option string.
Variable applyOptions :
  hrpc.Scan Context RegionInfo -> list (call_option Context RegionInfo) ->
  hrpc.Scan Context RegionInfo * option string.

Local Abbreviation Scan := (hrpc.Scan Context RegionInfo).
Local Abbreviation scanRequest := (hrpc.scanRequest regionSpecifier familiesToColumn).
Local Abbreviation Serialize :=
  (hrpc.Serialize regionSpecifier familiesToColumn Marshal).
Local Abbreviation baseScan := (@hrpc.baseScan Context RegionInfo applyOptions).

Lemma MaxUint64_value : MaxUint64 = 18446744073709551615.
Proof. reflexivity. Qed.

(** A scanner ID other than the sentinel: the request carries it and has no
    scan in it. *)
Lemma scanRequest_with_id (s : Scan) :
  scannerID s <> MaxUint64 ->
  scanRequest s =
  inl {| pb.Region := regionSpecifier (scan_base s);
         pb.ScanRequest_Scan := None;
         pb.ScannerId := Some (scannerID s);
         pb.NumberOfRows := Some (numberOfRows s);
         pb.CloseScanner := Some (closeScanner s) |}.
Proof.
  intros H. unfold scanRequest.
  destruct (scannerID s =? MaxUint64) eqn:E; [ | reflexivity ].
  apply Z.eqb_eq in E. contradiction.
Qed.

Ltac optional_fields :=
  unfold scan_time_range, scan_max_versions; cbn;
  repeat match goal with
         | |- context [ ?a =? ?b ] => destruct (a =? b)
         end;
  reflexivity.

(** The sentinel: the request is built with the scan in it, unless the filter
    fails. *)
Lemma scanRequest_without_id (s : Scan) :
  scannerID s = MaxUint64 ->
  match filter_error s with
  | Some err => scanRequest s = inr err
  | None =>
      exists req body,
        scanRequest s = inl req /\
        pb.ScannerId req = None /\
        pb.ScanRequest_Scan req = Some body /\
        pb.StartRow body = startRow s /\
        pb.StopRow body = stopRow s /\
        pb.Scan_Column body = familiesToColumn (families s) /\
        pb.Scan_Filter body = scan_filter s /\
        pb.Scan_TimeRange body = Some (scan_time_range s) /\
        pb.MaxVersions body = scan_max_versions s
  end.
Proof.
  intros H. unfold filter_error, scanRequest.
  rewrite H, Z.eqb_refl. cbn [negb].
  destruct (filters s) as [ft | ] eqn:Hft.
  - destruct (ConstructPBFilter ft) as [f [err | ]] eqn:E; cbn [snd].
    + reflexivity.
    + eexists; eexists. split; [ reflexivity | ].
      unfold scan_filter. rewrite Hft, E. repeat split; optional_fields.
  - eexists; eexists. split; [ reflexivity | ].
    unfold scan_filter. rewrite Hft. repeat split; optional_fields.
Qed.

(** C10, as amended. The sentinel of "no scanner ID" is 2^64-1, which a scan
    made without options carries. [Serialize] puts the ScannerId field in the
    request and leaves the scan out of it exactly when the scanner ID differs
    from the sentinel. When it equals the sentinel, the request has the scan
    (rows, columns, filter, time range, versions) and no ScannerId field,
    provided the filter, if there is one, gives no error; on such an error
    [Serialize] returns the error and marshals nothing. *)
Theorem Serialize_scanner_id_or_scan (s : Scan) :
  MaxUint64 = 2 ^ 64 - 1 /\
  ((exists req, scanRequest s = inl req /\ Serialize s = Marshal req /\
                pb.ScannerId req = Some (scannerID s) /\
                pb.ScanRequest_Scan req = None)
   <-> scannerID s <> MaxUint64) /\
  (scannerID s = MaxUint64 ->
   match filter_error s with
   | Some err => Serialize s = ([], Some err)
   | None =>
       exists req body,
         scanRequest s = inl req /\ Serialize s = Marshal req /\
         pb.ScannerId req = None /\
         pb.ScanRequest_Scan req = Some body /\
         pb.StartRow body = startRow s /\
         pb.StopRow body = stopRow s /\
         pb.Scan_Column body = familiesToColumn (families s) /\
         pb.Scan_Filter body = scan_filter s /\
         pb.Scan_TimeRange body = Some (scan_time_range s) /\
         pb.MaxVersions body = scan_max_versions s
   end) /\
  ((forall s0, applyOptions s0 [] = (s0, None)) ->
   forall c table key,
   exists s1, baseScan c table key [] = (Some s1, None) /\
              scannerID s1 = MaxUint64).
Proof.
  split; [ reflexivity | ]. split; [ | split ].
  - split.
    + intros (req & Hreq & _ & Hid & Hscan) Heq.
      pose proof (scanRequest_without_id s Heq) as H.
      destruct (filter_error s) as [err | ].
      * rewrite Hreq in H. discriminate.
      * destruct H as (req' & body & Hreq' & _ & Hbody & _).
        rewrite Hreq in Hreq'. injection Hreq' as <-.
        rewrite Hscan in Hbody. discriminate.
    + intros Hne. pose proof (scanRequest_with_id s Hne) as H.
      eexists. split; [ exact H | ].
      unfold Serialize. rewrite H. repeat split.
  - intros Heq. pose proof (scanRequest_without_id s Heq) as H.
    destruct (filter_error s) as [err | ].
    + unfold Serialize. rewrite H. reflexivity.
    + destruct H as (req & body & Hreq & Hid & Hbody & Hrows).
      exists req, body. unfold Serialize. rewrite Hreq. repeat split; tauto.
  - intros Hopt c table key. unfold baseScan. rewrite Hopt.
    eexists. split; reflexivity.
Qed.

(** ** The constructors of a scan *)

Local Abbreviation NewScanRange :=
  (@hrpc.NewScanRange Context RegionInfo applyOptions).
Local Abbreviation NewScanFromID :=
  (@hrpc.NewScanFromID Context RegionInfo applyOptions).
Local Abbreviation NewCloseFromID :=
  (@hrpc.NewCloseFromID Context RegionInfo applyOptions).

Variable GetStopKey : RegionInfo -> bytes.

Local Abbreviation GetRegionStop :=
  (@hrpc.GetRegionStop Context RegionInfo GetStopKey).

Local Abbreviation scanner_request := (hrpc.scanner_request regionSpecifier).


(** X12. With options applied in order, [NewScanFromID] and [NewCloseFromID]
    for a scanner ID other than the sentinel give scans that [Serialize]
    turns into the request of that ID: no scan in it, 128 rows at most, and
    the close flag false for the first and true for the second. *)
Theorem Serialize_scanner (c : Context) (table row : bytes) (id : Z) :
  (forall s0, applyOptions s0 [] = (s0, None)) ->
  id <> MaxUint64 ->
  (exists s, NewScanFromID c table id row = Returns s /\
             Serialize s = Marshal (scanner_request c table row id false)) /\
  (exists s, NewCloseFromID c table id row = Returns s /\
             Serialize s = Marshal (scanner_request c table row id true)).
Proof.
  intros Hopt Hid.
  unfold hrpc.NewScanFromID, hrpc.NewCloseFromID, hrpc.baseScan.
  rewrite Hopt. cbn [fst deref bind].
  split; eexists; (split; [ reflexivity | ]);
    unfold hrpc.Serialize; rewrite scanRequest_with_id by exact Hid;
    reflexivity.
Qed.

(** X13. The sentinel is no scanner ID: [NewCloseFromID] for the ID 2^64-1
    gives a scan that [Serialize] turns into the request of a new scan of the
    whole table, with the close flag and without a ScannerId field. *)
Theorem Serialize_close_sentinel (c : Context) (table row : bytes) :
  (forall s0, applyOptions s0 [] = (s0, None)) ->
  exists s,
    NewCloseFromID c table MaxUint64 row = Returns s /\
    scanRequest s =
    inl {| pb.Region := regionSpecifier {| table := table; key := row;
                                           region := None; ctx := c |};
           pb.ScanRequest_Scan :=
             Some {| pb.Scan_Column := familiesToColumn [];
                     pb.StartRow := [];
                     pb.StopRow := [];
                     pb.Scan_Filter := None;
                     pb.Scan_TimeRange :=
                       Some {| pb.From := None; pb.To := None |};
                     pb.MaxVersions := None |};
           pb.ScannerId := None;
           pb.NumberOfRows := Some 128;
           pb.CloseScanner := Some true |}.
Proof.
  intros Hopt. unfold hrpc.NewCloseFromID, hrpc.baseScan.
  rewrite Hopt. cbn [fst deref bind]. eexists. split; reflexivity.
Qed.

(** X14. With a scanner ID other than the sentinel [Serialize] reads nothing
    of the scan but its call, its ID, its number of rows and its close flag:
    the rows, the families, the time range, the versions and the filter, even
    one that fails, do not change the result. *)
Theorem Serialize_scanner_only (s1 s2 : Scan) :
  scannerID s1 <> MaxUint64 ->
  scannerID s2 = scannerID s1 ->
  scan_base s2 = scan_base s1 ->
  numberOfRows s2 = numberOfRows s1 ->
  closeScanner s2 = closeScanner s1 ->
  Serialize s2 = Serialize s1.
Proof.
  intros Hid Eid Eb En Ec. unfold hrpc.Serialize.
  rewrite (scanRequest_with_id s1 Hid).
  rewrite scanRequest_with_id by congruence.
  now rewrite Eid, Eb, En, Ec.
Qed.

(** X15. An error of [Serialize] is the error of the filter, met with the
    sentinel as scanner ID and returned with no bytes, or else the error of
    [proto.Marshal] for the request built. *)
Theorem Serialize_error (s : Scan) (b : bytes) (err : string) :
  Serialize s = (b, Some err) ->
  (scannerID s = MaxUint64 /\ filter_error s = Some err /\ b = []) \/
  (exists req, scanRequest s = inl req /\ Marshal req = (b, Some err)).
Proof.
  unfold hrpc.Serialize.
  destruct (scanRequest s) as [req | e] eqn:E.
  - intros H. right. now exists req.
  - intros H. injection H as <- <-. left.
    destruct (Z.eq_dec (scannerID s) MaxUint64) as [Hid | Hid].
    + pose proof (scanRequest_without_id s Hid) as H.
      destruct (filter_error s) as [e' | ].
      * rewrite E in H. injection H as ->. auto.
      * destruct H as (req & body & H & _). rewrite E in H. discriminate.
    + rewrite (scanRequest_with_id s Hid) in E. discriminate.
Qed.

(** X16. A scan that a constructor has just made has no region:
    [GetRegionStop] panics on it, and returns the stop key of the region once
    the scan has one. *)
Theorem GetRegionStop_region (c : Context) (table row : bytes) (id : Z)
    (s : Scan) :
  (forall s0, applyOptions s0 [] = (s0, None)) ->
  (baseScan c table row [] = (Some s, None) ->
   GetRegionStop s = Panics NilDereference) /\
  (NewScanFromID c table id row = Returns s ->
   GetRegionStop s = Panics NilDereference) /\
  (forall r, region (scan_base s) = Some r ->
             GetRegionStop s = Returns (GetStopKey r)).
Proof.
  intros Hopt. unfold hrpc.NewScanFromID, hrpc.baseScan. rewrite Hopt.
  cbn [fst deref bind]. split; [ | split ].
  - intros H. injection H as <-. reflexivity.
  - intros H. injection H as <-. reflexivity.
  - intros r H. unfold hrpc.GetRegionStop. now rewrite H.
Qed.

(** X19. With options applied in order, the scan that [NewScanRange] makes
    without options is serialized as the request of a new scan of the range:
    the two rows as given, every family, no filter, a time range without
    bounds, no number of versions, 128 rows at most, and neither a scanner ID
    nor the close flag set. *)
Theorem NewScanRange_request (c : Context) (table startRow stopRow : bytes) :
  (forall s0, applyOptions s0 [] = (s0, None)) ->
  exists s,
    NewScanRange c table startRow stopRow [] = (Some s, None) /\
    scanRequest s =
    inl {| pb.Region := regionSpecifier {| table := table; key := startRow;
                                           region := None; ctx := c |};
           pb.ScanRequest_Scan :=
             Some {| pb.Scan_Column := familiesToColumn [];
                     pb.StartRow := startRow;
                     pb.StopRow := stopRow;
                     pb.Scan_Filter := None;
                     pb.Scan_TimeRange :=
                       Some {| pb.From := None; pb.To := None |};
                     pb.MaxVersions := None |};
           pb.ScannerId := None;
           pb.NumberOfRows := Some 128;
           pb.CloseScanner := Some false |}.
Proof.
  intros Hopt. unfold hrpc.NewScanRange, hrpc.baseScan. rewrite Hopt.
  eexists. split; reflexivity.
Qed.

End Serialize.

Lemma NewScanRange_request_witness :
  exists s,
    NewScanRange (@apply_in_order unit unit) tt (bytes_of "t")
      (bytes_of "a") (bytes_of "m") [] = (Some s, None) /\
    Serialize example_specifier example_columns example_Marshal s =
      (bytes_of "scan", None).
Proof.
  destruct (@NewScanRange_request unit unit example_specifier example_columns
              (@apply_in_order unit unit) tt (bytes_of "t") (bytes_of "a")
              (bytes_of "m") (fun s0 => eq_refl)) as (s & Hs & Hreq).
  exists s. split; [ exact Hs | ].
  unfold Serialize. rewrite Hreq. reflexivity.
Defined.

Lemma Serialize_scanner_witness :
  (exists s,
     NewScanFromID (@apply_in_order unit unit) tt (bytes_of "t") 7 [] =
       Returns s /\
     Serialize example_specifier example_columns example_Marshal s =
       example_Marshal
         (scanner_request example_specifier tt (bytes_of "t") [] 7 false)) /\
  (exists s,
     NewCloseFromID (@apply_in_order unit unit) tt (bytes_of "t") 7 [] =
       Returns s /\
     Serialize example_specifier example_columns example_Marshal s =
       example_Marshal
         (scanner_request example_specifier tt (bytes_of "t") [] 7 true)).
Proof.
  apply (@Serialize_scanner unit unit example_specifier example_columns
           example_Marshal (@apply_in_order unit unit) tt (bytes_of "t") [] 7).
  - intros s0. reflexivity.
  - discriminate.
Defined.

Lemma Serialize_close_sentinel_witness :
  exists s,
    NewCloseFromID (@apply_in_order unit unit) tt (bytes_of "t") MaxUint64
      (bytes_of "row") = Returns s /\
    Serialize example_specifier example_columns example_Marshal s =
      (bytes_of "scan,close", None).
Proof.
  destruct (@Serialize_close_sentinel unit unit example_specifier
              example_columns (@apply_in_order unit unit) tt (bytes_of "t")
              (bytes_of "row") (fun s0 => eq_refl)) as (s & Hs & Hreq).
  exists s. split; [ exact Hs | ].
  unfold Serialize. rewrite Hreq. reflexivity.
Defined.

Lemma Serialize_scanner_only_witness :
  Serialize example_specifier example_columns example_Marshal
    (example_scan 7 None) =
  Serialize example_specifier example_columns example_Marshal
    (example_scan 7 (Some failing_filter)).
Proof.
  apply (@Serialize_scanner_only unit unit example_specifier example_columns
           example_Marshal (example_scan 7 (Some failing_filter))
           (example_scan 7 None));
    [ discriminate | reflexivity | reflexivity | reflexivity | reflexivity ].
Defined.

Lemma Serialize_error_witness :
  (scannerID failing_scan = MaxUint64 /\
   filter_error failing_scan = Some "bad filter"%string /\
   @nil byte = []) \/
  (exists req,
     scanRequest example_specifier example_columns failing_scan = inl req /\
     example_Marshal req = ([], Some "bad filter"%string)).
Proof.
  exact (@Serialize_error unit unit example_specifier example_columns
           example_Marshal failing_scan [] "bad filter"%string eq_refl).
Defined.

Lemma GetRegionStop_region_witness :
  (baseScan (@apply_in_order unit unit) tt (bytes_of "t") [] [] =
     (Some (example_scan MaxUint64 None), None) ->
   GetRegionStop (fun _ : unit => bytes_of "m") (example_scan MaxUint64 None) =
     Panics NilDereference) /\
  (NewScanFromID (@apply_in_order unit unit) tt (bytes_of "t") 7 [] =
     Returns (example_scan MaxUint64 None) ->
   GetRegionStop (fun _ : unit => bytes_of "m") (example_scan MaxUint64 None) =
     Panics NilDereference) /\
  (forall r, region (scan_base (example_scan MaxUint64 None)) = Some r ->
             GetRegionStop (fun _ : unit => bytes_of "m")
               (example_scan MaxUint64 None) =
             Returns (bytes_of "m")).
Proof.
  exact (@GetRegionStop_region unit unit (@apply_in_order unit unit)
           (fun _ : unit => bytes_of "m") tt (bytes_of "t") [] 7
           (example_scan MaxUint64 None) (fun s0 => eq_refl)).
Defined.

(** C10 as first stated fails there: the scanner ID is the sentinel, and
    [Serialize] returns the error of the filter, so that no request, with or
    without a scan in it, is serialized. *)
Lemma Serialize_failing_filter :
  scannerID failing_scan = MaxUint64 /\
  Serialize (fun _ => None) (fun _ => []) (fun _ => ([], None)) failing_scan =
    ([], Some "bad filter"%string) /\
  ~ (exists req body,
       scanRequest (fun _ => None) (fun _ => []) failing_scan = inl req /\
       pb.ScanRequest_Scan req = Some body /\ pb.ScannerId req = None).
Proof.
  split; [ reflexivity | ]. split; [ reflexivity | ].
  intros (req & body & H & _). discriminate H.
Qed.

End HrpcFacts.

(** ** Package gohbase: the cache of region locations *)

Module CacheFacts.

Import region gohbase.

(** ** Keys, bounds and equality of descriptors *)

Lemma before_stop_bound (s e : bytes) :
  before_stop s e = true <-> lt_bound s (stop_bound e).
Proof.
  unfold before_stop, GoBytes.ltb. destruct e as [ | x e ]; simpl.
  - tauto.
  - destruct (GoBytes.Compare s (x :: e)); split; congruence.
Qed.

Lemma before_stop_unbounded (s : bytes) : before_stop s [] = true.
Proof. reflexivity. Qed.

(** An empty start key, the beginning of the key space, is before every stop
    key. *)
Lemma before_stop_first (e : bytes) : before_stop [] e = true.
Proof. now destruct e. Qed.

Lemma before_stop_bounded (s e : bytes) :
  e <> [] -> before_stop s e = GoBytes.ltb s e.
Proof. destruct e; [ congruence | reflexivity ]. Qed.

Lemma isRegionOverlap_sym (a b : Info) :
  isRegionOverlap a b = isRegionOverlap b a.
Proof.
  unfold isRegionOverlap, GoBytes.Equal.
  rewrite (GoBytesFacts.Compare_antisym (Table a) (Table b)).
  destruct (GoBytes.Compare (Table a) (Table b)); simpl;
    try reflexivity. apply andb_comm.
Qed.

Lemma isRegionOverlap_true (a b : Info) :
  isRegionOverlap a b = true <->
  Table a = Table b /\
  lt_bound (StartKey a) (stop_bound (StopKey b)) /\
  lt_bound (StartKey b) (stop_bound (StopKey a)).
Proof.
  unfold isRegionOverlap.
  rewrite !andb_true_iff, GoBytesFacts.Equal_true, !before_stop_bound. tauto.
Qed.

Lemma Info_eqb_true (a b : Info) : Info_eqb a b = true <-> a = b.
Proof.
  unfold Info_eqb. rewrite !andb_true_iff, !GoBytesFacts.Equal_true.
  destruct a, b; simpl. split.
  - intros [[[-> ->] ->] ->]. reflexivity.
  - intros H. injection H as -> -> -> ->. tauto.
Qed.

Lemma member_In (e : Info) (l : list Info) : member e l = true <-> In e l.
Proof.
  unfold member. rewrite existsb_exists. split.
  - intros (x & Hx & E). apply Info_eqb_true in E. now subst.
  - intros H. exists e. split; [ exact H | now apply Info_eqb_true ].
Qed.

Lemma exact_match_refl (d : Info) : exact_match d d = true.
Proof. unfold exact_match. now rewrite !GoBytesFacts.Equal_refl. Qed.

(** Two descriptors of one table that match exactly are the same. *)
Lemma exact_match_eq (a b : Info) :
  Table a = Table b -> exact_match a b = true -> a = b.
Proof.
  unfold exact_match. rewrite !andb_true_iff, !GoBytesFacts.Equal_true.
  destruct a, b; simpl. intros -> [[-> ->] ->]. reflexivity.
Qed.

Lemma key_compare_refl (a : Info) : key_compare a a = Eq.
Proof. unfold key_compare. now rewrite !GoBytesFacts.Compare_refl. Qed.

Lemma key_compare_eq (a b : Info) :
  key_compare a b = Eq -> Table a = Table b /\ StartKey a = StartKey b.
Proof.
  unfold key_compare.
  destruct (GoBytes.Compare (Table a) (Table b)) eqn:E; try discriminate.
  intros H. split; now apply GoBytesFacts.Compare_eq.
Qed.

Lemma key_compare_antisym (a b : Info) :
  key_compare b a = CompOpp (key_compare a b).
Proof.
  unfold key_compare. rewrite (GoBytesFacts.Compare_antisym (Table a) (Table b)).
  destruct (GoBytes.Compare (Table a) (Table b)); simpl; try reflexivity.
  apply GoBytesFacts.Compare_antisym.
Qed.

Lemma key_compare_trans (a b c : Info) :
  key_compare a b = Lt -> key_compare b c = Lt -> key_compare a c = Lt.
Proof.
  unfold key_compare.
  destruct (GoBytes.Compare (Table a) (Table b)) eqn:Eab; try discriminate;
    destruct (GoBytes.Compare (Table b) (Table c)) eqn:Ebc; try discriminate;
    intros H1 H2.
  - apply GoBytesFacts.Compare_eq in Eab, Ebc. rewrite Eab, Ebc.
    rewrite GoBytesFacts.Compare_refl. exact (GoBytesFacts.Compare_trans _ _ _ H1 H2).
  - apply GoBytesFacts.Compare_eq in Eab. now rewrite Eab, Ebc.
  - apply GoBytesFacts.Compare_eq in Ebc. now rewrite <- Ebc, Eab.
  - now rewrite (GoBytesFacts.Compare_trans _ _ _ Eab Ebc).
Qed.

Lemma same_range_key (a b : Info) :
  same_range a b = true -> key_compare a b = Eq.
Proof.
  unfold same_range, key_compare.
  rewrite !andb_true_iff, !GoBytesFacts.Equal_true. intros [[-> ->] _].
  now rewrite !GoBytesFacts.Compare_refl.
Qed.

Lemma same_range_refl (d : Info) : same_range d d = true.
Proof. unfold same_range. now rewrite !GoBytesFacts.Equal_refl. Qed.

(** ** Insertion in the ordered index *)

Lemma In_insert (d x : Info) (c : Cache) :
  In x (insert d c) -> x = d \/ In x c.
Proof.
  induction c as [ | e c IH ]; simpl.
  - intros [-> | []]. now left.
  - destruct (key_compare d e); simpl.
    + intros [-> | H]; [ now left | right; now right ].
    + intros [-> | H]; [ now left | now right ].
    + intros [-> | H]; [ right; now left | ].
      destruct (IH H) as [-> | H']; [ now left | right; now right ].
Qed.

Lemma insert_In (d : Info) (c : Cache) : In d (insert d c).
Proof.
  induction c as [ | e c IH ]; simpl; [ now left | ].
  destruct (key_compare d e); simpl; [ now left | now left | now right ].
Qed.

Lemma insert_insert (d : Info) (c : Cache) :
  insert d (insert d c) = insert d c.
Proof.
  induction c as [ | e c IH ]; simpl.
  - now rewrite key_compare_refl.
  - destruct (key_compare d e) eqn:E; simpl.
    + now rewrite key_compare_refl.
    + now rewrite key_compare_refl.
    + now rewrite E, IH.
Qed.

Lemma ordered_filter (p : Info -> bool) (c : Cache) :
  ordered c -> ordered (filter p c).
Proof.
  unfold ordered. induction 1 as [ | e c Hc IH He ]; simpl.
  - constructor.
  - destruct (p e); [ | exact IH ]. constructor; [ exact IH | ].
    rewrite Forall_forall in *. intros x Hx. apply filter_In in Hx.
    apply He, Hx.
Qed.

Lemma ordered_insert (d : Info) (c : Cache) :
  ordered c -> ordered (insert d c).
Proof.
  unfold ordered. induction 1 as [ | e c Hc IH He ]; simpl.
  - repeat constructor.
  - rewrite Forall_forall in He.
    destruct (key_compare d e) eqn:E.
    + constructor; [ exact Hc | ]. rewrite Forall_forall. intros x Hx.
      apply key_compare_eq in E. destruct E as [Et Es].
      specialize (He x Hx). unfold key_compare in *. now rewrite Et, Es.
    + constructor; [ now constructor; [ | rewrite Forall_forall ] | ].
      rewrite Forall_forall. intros x [<- | Hx]; [ exact E | ].
      exact (key_compare_trans _ _ _ E (He x Hx)).
    + constructor; [ exact IH | ]. rewrite Forall_forall. intros x Hx.
      destruct (In_insert _ _ _ Hx) as [-> | Hx']; [ | now apply He ].
      rewrite (key_compare_antisym d e), E. reflexivity.
Qed.

(** In an ordered cache the entry with the key of [d] is alone with it. *)
Lemma ordered_unique (p : Info -> bool) (d : Info) (c : Cache) :
  ordered c -> In d c -> p d = true ->
  (forall e, p e = true -> key_compare e d = Eq) ->
  filter p c = [d].
Proof.
  unfold ordered. intros Hc Hd Hpd Hp.
  induction Hc as [ | e c Hc IH He ]; [ destruct Hd | ].
  rewrite Forall_forall in He. simpl. destruct Hd as [-> | Hd].
  - rewrite Hpd. f_equal.
    assert (forall x, In x c -> p x = false) as Hnone.
    { intros x Hx. destruct (p x) eqn:E; [ | reflexivity ].
      specialize (Hp x E). specialize (He x Hx).
      rewrite (key_compare_antisym d x), He in Hp. discriminate. }
    clear - Hnone. induction c as [ | x c IH ]; [ reflexivity | ]. simpl.
    rewrite (Hnone x (or_introl eq_refl)). apply IH.
    intros y Hy. apply Hnone. now right.
  - destruct (p e) eqn:E; [ | exact (IH Hd) ].
    specialize (Hp e E). rewrite (He d Hd) in Hp. discriminate.
Qed.

(** ** The predecessor search *)

Lemma better_cases (table key : bytes) (best : option Info) (e : Info) :
  better table key best e = best \/
  (better table key best e = Some e /\ Table e = table /\
   GoBytes.leb (StartKey e) key = true).
Proof.
  unfold better.
  destruct (GoBytes.Equal (Table e) table) eqn:Et; simpl; [ | now left ].
  destruct (GoBytes.leb (StartKey e) key) eqn:Ek; [ | now left ].
  apply GoBytesFacts.Equal_true in Et.
  destruct best as [b | ]; [ | now right ].
  destruct (GoBytes.leb (StartKey b) (StartKey e)); [ now right | now left ].
Qed.

Lemma fold_better (table key : bytes) (c : Cache) (r : Info)
    (acc : option Info) :
  fold_left (better table key) c acc = Some r ->
  acc = Some r \/
  (In r c /\ Table r = table /\ GoBytes.leb (StartKey r) key = true).
Proof.
  revert acc. induction c as [ | e c IH ]; simpl; intros acc H.
  - now left.
  - destruct (IH _ H) as [Hacc | (Hin & Ht & Hk)].
    + destruct (better_cases table key acc e) as [E | (E & Ht & Hk)];
        rewrite E in Hacc.
      * now left.
      * injection Hacc as <-. right. split; [ now left | now split ].
    + right. split; [ now right | now split ].
Qed.

Lemma floor_Some (c : Cache) (table key : bytes) (r : Info) :
  floor c table key = Some r ->
  In r c /\ Table r = table /\ GoBytes.leb (StartKey r) key = true.
Proof.
  intros H. destruct (@fold_better table key c r None H) as [E | E];
    [ discriminate | exact E ].
Qed.

(** What a lookup finds is a cached descriptor of the table asked for whose
    range holds the key. *)
Lemma getRegionFromCache_Some (c : Cache) (table key : bytes) (r : Info) :
  getRegionFromCache c table key = Some r ->
  In r c /\ Table r = table /\ covers r key = true.
Proof.
  unfold getRegionFromCache, covers.
  destruct (floor c table key) as [e | ] eqn:E; [ | discriminate ].
  destruct (before_stop key (StopKey e)) eqn:Es; [ | discriminate ].
  intros H. injection H as <-. apply floor_Some in E.
  destruct E as (Hin & Ht & Hk). rewrite Hk, Es. tauto.
Qed.

(** ** Puts *)

Lemma In_superseded (c : Cache) (d e : Info) :
  In e (snd (put c d)) <->
  In e c /\ isRegionOverlap d e = true /\ exact_match e d = false.
Proof.
  unfold put, getOverlaps. simpl. rewrite !filter_In, negb_true_iff. tauto.
Qed.

Lemma In_after_put (c : Cache) (d x : Info) :
  In x (after_put c d) -> x = d \/ (In x c /\ ~ In x (snd (put c d))).
Proof.
  unfold after_put, put. simpl. intros H.
  destruct (In_insert _ _ _ H) as [-> | H']; [ now left | right ].
  apply filter_In in H'. destruct H' as [Hin Hm]. split; [ exact Hin | ].
  apply negb_true_iff in Hm. intros Hs. apply member_In in Hs.
  simpl in Hs. congruence.
Qed.

Lemma after_put_In (c : Cache) (d : Info) : In d (after_put c d).
Proof. unfold after_put, put. simpl. apply insert_In. Qed.

(** After a put, whatever in the cache overlaps the new descriptor is the new
    descriptor. *)
Lemma after_put_overlap (c : Cache) (d f : Info) :
  In f (after_put c d) -> isRegionOverlap d f = true -> f = d.
Proof.
  intros Hin Hov. destruct (In_after_put _ _ _ Hin) as [-> | [Hc Hns]];
    [ reflexivity | ].
  destruct (exact_match f d) eqn:E.
  - apply exact_match_eq; [ | exact E ].
    apply isRegionOverlap_true in Hov. symmetry. apply Hov.
  - exfalso. apply Hns. apply In_superseded. tauto.
Qed.

Lemma ordered_after_put (c : Cache) (d : Info) :
  ordered c -> ordered (after_put c d).
Proof.
  intros H. unfold after_put, put. simpl.
  apply ordered_insert, ordered_filter, H.
Qed.

Lemma filter_none (A : Type) (p : A -> bool) (l : list A) :
  (forall x, In x l -> p x = false) -> filter p l = [].
Proof.
  induction l as [ | x l IH ]; simpl; intros H; [ reflexivity | ].
  rewrite (H x (or_introl eq_refl)). apply IH. intros y Hy. apply H. now right.
Qed.

Lemma filter_all (A : Type) (p : A -> bool) (l : list A) :
  (forall x, In x l -> p x = true) -> filter p l = l.
Proof.
  induction l as [ | x l IH ]; simpl; intros H; [ reflexivity | ].
  rewrite (H x (or_introl eq_refl)). f_equal. apply IH. intros y Hy.
  apply H. now right.
Qed.

Lemma leb_false (a b : bytes) :
  GoBytes.leb a b = false -> GoBytes.leb b a = true.
Proof.
  unfold GoBytes.leb. rewrite (GoBytesFacts.Compare_antisym a b).
  now destruct (GoBytes.Compare a b).
Qed.

(** ** Overlaps *)

Lemma well_formed_before_stop (d : Info) :
  well_formed d -> before_stop (StartKey d) (StopKey d) = true.
Proof.
  intros [H | [H | H]].
  - rewrite H. apply before_stop_first.
  - rewrite H. reflexivity.
  - unfold before_stop, GoBytes.ltb. rewrite H. apply orb_true_r.
Qed.

(** C1. [getOverlaps] reports a cached descriptor [e] for [d] if and only if
    both are of one table and, an empty stop key being infinity, the start of
    each is below the stop of the other. So a descriptor of the data model
    overlaps its cached copy; with no cached entry of the table the result is
    empty; a descriptor of another table is never reported; a descriptor
    unbounded on both sides overlaps every cached entry of its table; and two
    adjacent ranges, the stop key of one being the start key of the other, do
    not overlap. *)
Theorem getOverlaps_spec (c : Cache) (d e : Info) :
  (In e (getOverlaps c d) <->
   In e c /\ Table e = Table d /\
   lt_bound (StartKey d) (stop_bound (StopKey e)) /\
   lt_bound (StartKey e) (stop_bound (StopKey d))) /\
  (well_formed d -> In d c -> In d (getOverlaps c d)) /\
  ((forall x, In x c -> Table x <> Table d) -> getOverlaps c d = []) /\
  (Table e <> Table d -> ~ In e (getOverlaps c d)) /\
  (StartKey d = [] -> StopKey d = [] -> In e c -> Table e = Table d ->
   In e (getOverlaps c d)) /\
  (StopKey e <> [] -> StartKey d = StopKey e -> ~ In e (getOverlaps c d)) /\
  (StopKey d <> [] -> StartKey e = StopKey d -> ~ In e (getOverlaps c d)).
Proof.
  unfold getOverlaps.
  split; [ | split; [ | split; [ | split; [ | split; [ | split ] ] ] ] ].
  - rewrite filter_In, isRegionOverlap_true. intuition congruence.
  - intros Hwf Hin. apply filter_In. split; [ exact Hin | ].
    unfold isRegionOverlap.
    now rewrite GoBytesFacts.Equal_refl, (well_formed_before_stop Hwf).
  - intros H. apply filter_none. intros x Hx.
    destruct (isRegionOverlap d x) eqn:E; [ | reflexivity ].
    apply isRegionOverlap_true in E. destruct E as [E _].
    exfalso. apply (H x Hx). now symmetry.
  - intros Hne H. apply filter_In in H. destruct H as [_ H].
    apply isRegionOverlap_true in H. apply Hne. symmetry. apply H.
  - intros Hs He Hin Ht. apply filter_In. split; [ exact Hin | ].
    unfold isRegionOverlap.
    rewrite Hs, He, Ht, GoBytesFacts.Equal_refl, before_stop_first. reflexivity.
  - intros Hb Hadj H. apply filter_In in H. destruct H as [_ H].
    unfold isRegionOverlap in H. rewrite !andb_true_iff in H.
    destruct H as [[_ H] _]. rewrite (before_stop_bounded _ Hb), Hadj in H.
    rewrite GoBytesFacts.ltb_irrefl in H. discriminate.
  - intros Hb Hadj H. apply filter_In in H. destruct H as [_ H].
    unfold isRegionOverlap in H. rewrite !andb_true_iff in H.
    destruct H as [_ H]. rewrite (before_stop_bounded _ Hb), Hadj in H.
    rewrite GoBytesFacts.ltb_irrefl in H. discriminate.
Qed.

(** A key before a stop key leaves the keys at or below it before that stop
    key. *)
Lemma before_stop_leb (s key e : bytes) :
  GoBytes.leb s key = true -> before_stop key e = true ->
  before_stop s e = true.
Proof.
  intros Hs He. unfold before_stop in *.
  destruct (unbounded e); [ reflexivity | simpl in * ].
  exact (GoBytesFacts.leb_ltb_trans _ _ _ Hs He).
Qed.

(** Two descriptors of the data model, of one table, overlap exactly when a
    key is in the range of both. *)
Lemma isRegionOverlap_shared_key (a b : Info) :
  well_formed a -> well_formed b -> Table a = Table b ->
  (isRegionOverlap a b = true <->
   exists key, covers a key = true /\ covers b key = true).
Proof.
  intros Ha Hb Ht. unfold isRegionOverlap, covers.
  rewrite Ht, GoBytesFacts.Equal_refl. simpl. rewrite andb_true_iff. split.
  - intros [Hab Hba].
    destruct (GoBytes.leb (StartKey a) (StartKey b)) eqn:E.
    + exists (StartKey b).
      now rewrite E, Hba, GoBytesFacts.leb_refl, (well_formed_before_stop Hb).
    + exists (StartKey a). apply leb_false in E.
      now rewrite E, Hab, GoBytesFacts.leb_refl, (well_formed_before_stop Ha).
  - intros (key & Hka & Hkb). apply andb_true_iff in Hka, Hkb.
    destruct Hka as [Hsa Hea], Hkb as [Hsb Heb].
    split; eapply before_stop_leb; eassumption.
Qed.

Example getOverlaps_test_cases :
  let region1 := named_region "test" "1" "" "foo" in
  let regionA := named_region "hello" "A" "" "foo" in
  let regionB := named_region "hello" "B" "foo" "fox" in
  let regionC := named_region "hello" "C" "fox" "yolo" in
  overlap_names [] region1 = [] /\
  overlap_names [region1] region1 = ["1"%string] /\
  overlap_names [region1] (named_region "hello" "n" "" "fake") = [] /\
  overlap_names [regionA; regionB] (named_region "hello" "n" "bar" "fop") =
    ["A"%string; "B"%string] /\
  overlap_names [regionA; regionB] (named_region "hello" "n" "" "yolo") =
    ["A"%string; "B"%string] /\
  overlap_names [regionA; regionB] (named_region "hello" "n" "fop" "yolo") =
    ["B"%string] /\
  overlap_names [regionA; regionB] (named_region "hello" "n" "" "abc") =
    ["A"%string] /\
  overlap_names [regionA; regionC] regionB = [].
Proof. repeat split. Qed.

(** ** Lookups *)

(** C6. With no descriptor of the table in the cache a lookup finds nothing,
    and what a lookup finds is never a descriptor of another table. *)
Theorem getRegionFromCache_unknown_table (c : Cache) (table key : bytes) :
  ((forall e, In e c -> Table e <> table) ->
   getRegionFromCache c table key = None) /\
  (forall r, getRegionFromCache c table key = Some r ->
             In r c /\ Table r = table).
Proof.
  split.
  - intros H. destruct (getRegionFromCache c table key) as [r | ] eqn:E;
      [ | reflexivity ].
    apply getRegionFromCache_Some in E. destruct E as (Hin & Ht & _).
    exfalso. exact (H r Hin Ht).
  - intros r E. apply getRegionFromCache_Some in E. tauto.
Qed.

(** The search keeps the greatest start key among the entries that qualify. *)
Lemma fold_better_greatest (table key : bytes) (c : Cache) (r : Info)
    (acc : option Info) :
  fold_left (better table key) c acc = Some r ->
  (forall b, acc = Some b ->
             GoBytes.leb (StartKey b) (StartKey r) = true) /\
  (forall f, In f c -> Table f = table ->
             GoBytes.leb (StartKey f) key = true ->
             GoBytes.leb (StartKey f) (StartKey r) = true).
Proof.
  revert acc. induction c as [ | e c IH ]; simpl; intros acc H.
  - split; [ | intros f [] ]. intros b Hb. rewrite Hb in H.
    injection H as <-. apply GoBytesFacts.leb_refl.
  - destruct (IH _ H) as [Hacc Hc]. split.
    + intros b ->. unfold better in Hacc.
      destruct (GoBytes.Equal (Table e) table && GoBytes.leb (StartKey e) key);
        [ | now apply Hacc ].
      destruct (GoBytes.leb (StartKey b) (StartKey e)) eqn:E;
        [ | now apply Hacc ].
      apply GoBytesFacts.leb_trans with (StartKey e); [ exact E | now apply Hacc ].
    + intros f [<- | Hf] Ht Hk; [ | now apply Hc ].
      unfold better in Hacc. apply GoBytesFacts.Equal_true in Ht.
      rewrite Ht, Hk in Hacc. simpl in Hacc.
      destruct acc as [b | ]; [ | now apply Hacc ].
      destruct (GoBytes.leb (StartKey b) (StartKey e)) eqn:E;
        [ now apply Hacc | ].
      apply GoBytesFacts.leb_trans with (StartKey b);
        [ now apply leb_false | now apply Hacc ].
Qed.

Lemma floor_greatest (c : Cache) (table key : bytes) (r f : Info) :
  floor c table key = Some r ->
  In f c -> Table f = table -> GoBytes.leb (StartKey f) key = true ->
  GoBytes.leb (StartKey f) (StartKey r) = true.
Proof.
  intros H. destruct (@fold_better_greatest table key c r None H) as [_ Hc].
  apply Hc.
Qed.

Lemma fold_better_found (table key : bytes) (c : Cache) (b : Info) :
  exists r, fold_left (better table key) c (Some b) = Some r.
Proof.
  revert b. induction c as [ | e c IH ]; simpl; intros b.
  - now exists b.
  - unfold better.
    destruct (GoBytes.Equal (Table e) table && GoBytes.leb (StartKey e) key);
      [ | apply IH ].
    destruct (GoBytes.leb (StartKey b) (StartKey e)); apply IH.
Qed.

(** The search finds a predecessor whenever the cache has an entry of the
    table that starts at or before the key. *)
Lemma floor_found (c : Cache) (table key : bytes) (f : Info) :
  In f c -> Table f = table -> GoBytes.leb (StartKey f) key = true ->
  exists r, floor c table key = Some r.
Proof.
  unfold floor. generalize (@None Info) as acc.
  induction c as [ | e c IH ]; simpl; intros acc Hin Ht Hk;
    [ destruct Hin | destruct Hin as [<- | Hf] ].
  - unfold better at 2.
    apply GoBytesFacts.Equal_true in Ht. rewrite Ht, Hk. simpl.
    destruct acc as [b | ]; [ | apply fold_better_found ].
    destruct (GoBytes.leb (StartKey b) (StartKey e));
      apply fold_better_found.
  - now apply IH.
Qed.

(** Within one table only the keys decide the order and the overlaps. *)
Lemma key_compare_table (T n n' s s' e e' : bytes) :
  key_compare {| Table := T; Name := n; StartKey := s; StopKey := e |}
              {| Table := T; Name := n'; StartKey := s'; StopKey := e' |} =
  GoBytes.Compare s s'.
Proof. unfold key_compare. simpl. now rewrite GoBytesFacts.Compare_refl. Qed.

Lemma isRegionOverlap_table (T n n' s s' e e' : bytes) :
  isRegionOverlap {| Table := T; Name := n; StartKey := s; StopKey := e |}
                  {| Table := T; Name := n'; StartKey := s'; StopKey := e' |} =
  before_stop s e' && before_stop s' e.
Proof. unfold isRegionOverlap. simpl. now rewrite GoBytesFacts.Equal_refl. Qed.

Lemma better_table (T n s e key : bytes) (best : option Info) :
  better T key best {| Table := T; Name := n; StartKey := s; StopKey := e |} =
  if GoBytes.leb s key then
    match best with
    | Some b =>
        if GoBytes.leb (StartKey b) s
        then Some {| Table := T; Name := n; StartKey := s; StopKey := e |}
        else Some b
    | None => Some {| Table := T; Name := n; StartKey := s; StopKey := e |}
    end
  else best.
Proof. unfold better. simpl. now rewrite GoBytesFacts.Equal_refl. Qed.

Ltac same_table :=
  repeat (rewrite ?key_compare_table, ?isRegionOverlap_table, ?better_table;
          cbn -[key_compare isRegionOverlap better]).

Lemma three_regions_cache (T n1 n2 n3 : bytes) :
  three_regions T n1 n2 n3 =
  [first_region T n1; second_region T n2; third_region T n3].
Proof.
  unfold three_regions, after_puts, after_put, put, getOverlaps,
    first_region, second_region, third_region.
  same_table. reflexivity.
Qed.



(** The other lookups of the test [TestMetaCache] on the three regions. *)
Example getRegionFromCache_test_keys (n1 n2 n3 : bytes) :
  let c := three_regions (bytes_of "test") n1 n2 n3 in
  getRegionFromCache c (bytes_of "test") (bytes_of "theKey") =
    Some (third_region (bytes_of "test") n3) /\
  getRegionFromCache c (bytes_of "test") ("f" :: "o" :: "n" :: [xff])%byte =
    Some (first_region (bytes_of "test") n1) /\
  getRegionFromCache c (bytes_of "test") ("f" :: "o" :: "o" :: [x00])%byte =
    Some (second_region (bytes_of "test") n2).
Proof.
  intros c. subst c. rewrite three_regions_cache.
  unfold getRegionFromCache, floor, first_region, second_region,
    third_region.
  repeat split; same_table; reflexivity.
Qed.

(** ** Supersession *)

(** A key at or past a bounded stop key is outside the range. *)
Lemma covers_past_stop (d : Info) (key : bytes) :
  StopKey d <> [] -> GoBytes.leb (StopKey d) key = true ->
  covers d key = false.
Proof.
  intros Hb Hk. unfold covers. rewrite (before_stop_bounded _ Hb).
  rewrite GoBytesFacts.leb_ltb in Hk. apply negb_true_iff in Hk. rewrite Hk.
  apply andb_false_r.
Qed.

(** C2 as first stated fails on the two regions: the put of the region that
    ends at "bar" supersedes the region that ends at "foo", and the lookup of
    "zzz", a key past "bar", still finds the region that starts at "foo",
    which the put left in the cache. *)
Lemma put_keeps_next_region :
  In region_to_foo two_regions /\
  isRegionOverlap region_to_bar region_to_foo = true /\
  snd (put two_regions region_to_bar) = [region_to_foo] /\
  after_put two_regions region_to_bar = [region_to_bar; region_from_foo] /\
  StopKey region_to_bar <> [] /\
  GoBytes.leb (StopKey region_to_bar) (bytes_of "zzz") = true /\
  getRegionFromCache (after_put two_regions region_to_bar)
    (Table region_to_bar) (bytes_of "zzz") = Some region_from_foo /\
  getRegionFromCache (after_put two_regions region_to_bar)
    (Table region_to_bar) (bytes_of "zzz") <> None.
Proof.
  split; [ now left | ]. split; [ reflexivity | ]. split; [ reflexivity | ].
  split; [ reflexivity | ]. split; [ discriminate | ].
  split; [ reflexivity | ]. split; [ reflexivity | discriminate ].
Qed.

(** C2, as amended. A put of [d] supersedes every cached descriptor [e] of
    its table that overlaps it and is not its exact duplicate: [e] is returned
    as superseded and is no longer cached, [d] is cached, and nothing else in
    the cache overlaps [d]. A later lookup of a key at or past the bounded
    stop key of [d] returns neither [d] nor a superseded descriptor, only a
    descriptor that the put left in the cache and whose range holds the key;
    when every cached descriptor whose range held the key was superseded, it
    returns not-found. *)
Theorem put_supersedes (c : Cache) (d e : Info) (key : bytes) :
  In e c -> isRegionOverlap d e = true -> exact_match e d = false ->
  (In e (snd (put c d)) /\ ~ In e (after_put c d)) /\
  (In d (after_put c d) /\
   forall f, In f (after_put c d) -> isRegionOverlap d f = true -> f = d) /\
  (StopKey d <> [] -> GoBytes.leb (StopKey d) key = true ->
   (forall r,
      getRegionFromCache (after_put c d) (Table d) key = Some r ->
      r <> d /\ In r c /\ ~ In r (snd (put c d)) /\ covers r key = true) /\
   ((forall f, In f c -> Table f = Table d -> covers f key = true ->
               In f (snd (put c d))) ->
    getRegionFromCache (after_put c d) (Table d) key = None)).
Proof.
  intros Hin Hov Hex.
  assert (In e (snd (put c d))) as Hsup by (apply In_superseded; tauto).
  split; [ split; [ exact Hsup | ] | split; [ split | ] ].
  - intros H. destruct (In_after_put _ _ _ H) as [-> | [_ Hns]].
    + rewrite exact_match_refl in Hex. discriminate.
    + contradiction.
  - apply after_put_In.
  - intros f. apply after_put_overlap.
  - intros Hb Hk.
    assert (forall r,
              getRegionFromCache (after_put c d) (Table d) key = Some r ->
              r <> d /\ In r c /\ ~ In r (snd (put c d)) /\
              covers r key = true) as Hfound.
    { intros r Hr. apply getRegionFromCache_Some in Hr.
      destruct Hr as (Hr & _ & Hcov).
      assert (r <> d) as Hne.
      { intros ->. rewrite (covers_past_stop _ _ Hb Hk) in Hcov.
        discriminate. }
      destruct (In_after_put _ _ _ Hr) as [-> | [Hc Hns]];
        [ contradiction | tauto ]. }
    split; [ exact Hfound | ]. intros Hall.
    destruct (getRegionFromCache (after_put c d) (Table d) key) as [r | ] eqn:E;
      [ | reflexivity ].
    pose proof E as E'. apply getRegionFromCache_Some in E'.
    destruct E' as (_ & Ht & _).
    destruct (Hfound r eq_refl) as (_ & Hc & Hns & Hcov).
    exfalso. apply Hns. now apply Hall.
Qed.

Lemma put_supersedes_witness :
  after_put [whole_table] lower_half = [lower_half] /\
  snd (put [whole_table] lower_half) = [whole_table] /\
  getRegionFromCache (after_put [whole_table] lower_half)
    (Table lower_half) (bytes_of "m") = None.
Proof.
  split; [ reflexivity | ]. split; [ reflexivity | ].
  destruct (@put_supersedes [whole_table] lower_half whole_table (bytes_of "m")
              (or_introl eq_refl) eq_refl eq_refl) as (_ & _ & H).
  apply H; [ discriminate | reflexivity | ].
  intros f [<- | []] _ _. simpl. left. reflexivity.
Defined.

(** The test [TestMetaCache] ends with such a put: the region that stops at
    "zab" supersedes the three regions, and "zoo" is then not found. *)
Example getRegionFromCache_after_split :
  let c := three_regions (bytes_of "test") (bytes_of "r1") (bytes_of "r2")
             (bytes_of "r3") in
  let region3 := {| Table := bytes_of "test"; Name := bytes_of "r3";
                    StartKey := []; StopKey := bytes_of "zab" |} in
  List.length (snd (put c region3)) = 3%nat /\
  after_put c region3 = [region3] /\
  getRegionFromCache (after_put c region3) (bytes_of "test")
    (bytes_of "theKey") = Some region3 /\
  getRegionFromCache (after_put c region3) (bytes_of "test")
    (bytes_of "zoo") = None.
Proof. repeat split. Qed.

(** ** Puts of a duplicate *)

Lemma insert_present (d : Info) (c : Cache) :
  ordered c -> In d c -> insert d c = c.
Proof.
  unfold ordered. induction 1 as [ | e c Hc IH He ]; intros Hd;
    [ destruct Hd | ].
  simpl. destruct Hd as [-> | Hd].
  - now rewrite key_compare_refl.
  - rewrite Forall_forall in He.
    rewrite (key_compare_antisym e d), (He d Hd). simpl. now rewrite IH.
Qed.

Lemma put_nothing_superseded (c : Cache) (d : Info) :
  (forall f, In f c -> isRegionOverlap d f = true -> f = d) ->
  put c d = (insert d c, []).
Proof.
  intros H. unfold put.
  assert (filter (fun e => negb (exact_match e d)) (getOverlaps c d) = [])
    as ->.
  { apply filter_none. intros x Hx. unfold getOverlaps in Hx.
    apply filter_In in Hx. destruct Hx as [Hx Hov].
    rewrite (H x Hx Hov), exact_match_refl. reflexivity. }
  f_equal. f_equal. apply filter_all. reflexivity.
Qed.

(** C7. A put of a descriptor that the cache received just before changes
    nothing: the second put reports no superseded descriptor and leaves the
    cache as it was, with exactly one entry for that range, the descriptor
    itself. *)
Theorem put_idempotent (c : Cache) (d : Info) :
  ordered c ->
  put (after_put c d) d = (after_put c d, []) /\
  filter (fun e => same_range e d) (after_put c d) = [d] /\
  filter (fun e => same_range e d) (fst (put (after_put c d) d)) = [d].
Proof.
  intros Hc.
  assert (put (after_put c d) d = (after_put c d, [])) as Hput.
  { rewrite put_nothing_superseded by (intros f; apply after_put_overlap).
    f_equal. unfold after_put, put. simpl. apply insert_insert. }
  assert (filter (fun e => same_range e d) (after_put c d) = [d]) as Hone.
  { apply ordered_unique.
    - now apply ordered_after_put.
    - apply after_put_In.
    - apply same_range_refl.
    - intros e. apply same_range_key. }
  rewrite Hput. simpl. tauto.
Qed.

Lemma put_idempotent_witness :
  put (after_put two_regions region_to_bar) region_to_bar =
    ([region_to_bar; region_from_foo], []) /\
  filter (fun e => same_range e region_to_bar)
    (after_put two_regions region_to_bar) = [region_to_bar] /\
  filter (fun e => same_range e region_to_bar)
    (fst (put (after_put two_regions region_to_bar) region_to_bar)) =
    [region_to_bar].
Proof.
  assert (ordered two_regions) as H.
  { repeat constructor. }
  exact (@put_idempotent two_regions region_to_bar H).
Defined.

(** The same for a descriptor that is cached, in a cache that is ordered and
    in which nothing else overlaps it. *)
Lemma put_cached (c : Cache) (d : Info) :
  ordered c -> In d c ->
  (forall f, In f c -> isRegionOverlap d f = true -> f = d) ->
  put c d = (c, []).
Proof.
  intros Hc Hd H. rewrite (@put_nothing_superseded c d H).
  now rewrite insert_present.
Qed.

(** ** The invariants of the cache *)

Lemma ordered_after_puts (regs : list Info) (c : Cache) :
  ordered c -> ordered (after_puts c regs).
Proof.
  revert c. induction regs as [ | d regs IH ]; simpl; intros c H;
    [ exact H | ].
  apply IH, ordered_after_put, H.
Qed.

Lemma disjoint_after_put (c : Cache) (d : Info) :
  disjoint c -> disjoint (after_put c d).
Proof.
  intros H a b Ha Hb Hov.
  destruct (In_after_put _ _ _ Ha) as [-> | [Hac _]].
  - symmetry. exact (after_put_overlap _ _ _ Hb Hov).
  - destruct (In_after_put _ _ _ Hb) as [-> | [Hbc _]].
    + rewrite isRegionOverlap_sym in Hov. exact (after_put_overlap _ _ _ Ha Hov).
    + exact (H a b Hac Hbc Hov).
Qed.

Lemma disjoint_after_puts (regs : list Info) (c : Cache) :
  disjoint c -> disjoint (after_puts c regs).
Proof.
  revert c. induction regs as [ | d regs IH ]; simpl; intros c H;
    [ exact H | ].
  apply IH, disjoint_after_put, H.
Qed.

(** Every cache that puts build from the empty one is ordered and without
    overlaps. *)
Lemma after_puts_invariants (regs : list Info) :
  ordered (after_puts [] regs) /\ disjoint (after_puts [] regs).
Proof.
  split.
  - apply ordered_after_puts. constructor.
  - apply disjoint_after_puts. intros a b [].
Qed.

(** In a cache without overlaps, of descriptors of the data model, a lookup
    of a key finds the cached descriptor whose range holds the key. *)
Lemma getRegionFromCache_cached (c : Cache) (d : Info) (key : bytes) :
  disjoint c -> (forall e, In e c -> well_formed e) ->
  In d c -> covers d key = true ->
  getRegionFromCache c (Table d) key = Some d.
Proof.
  intros Hdis Hwf Hd Hcov. unfold covers in Hcov.
  apply andb_true_iff in Hcov. destruct Hcov as [Hs He].
  destruct (@floor_found c (Table d) key d Hd eq_refl Hs) as [r Hr].
  pose proof (@floor_greatest c (Table d) key r d Hr Hd eq_refl Hs) as Hdr.
  apply floor_Some in Hr as Hr'. destruct Hr' as (Hrc & Hrt & Hrk).
  assert (r = d) as ->.
  { apply (Hdis r d Hrc Hd). unfold isRegionOverlap.
    rewrite Hrt, GoBytesFacts.Equal_refl, (before_stop_leb _ _ _ Hrk He).
    simpl.
    apply (before_stop_leb _ _ _ Hdr), well_formed_before_stop, Hwf, Hrc. }
  unfold getRegionFromCache. now rewrite Hr, He.
Qed.

End CacheFacts.

(** ** The names of regions: an order and a swap fit for [sort.Sort] *)

Module RegionNamesFacts.

Import regionNames.

Lemma at_index_Returns (a : t) (i : Z) (x : bytes) :
  at_index a i = Returns x <->
  0 <= i /\ nth_error a (Z.to_nat i) = Some x.
Proof.
  unfold at_index. destruct (i <? 0) eqn:E.
  - apply Z.ltb_lt in E. split; [ discriminate | lia ].
  - apply Z.ltb_ge in E.
    destruct (nth_error a (Z.to_nat i)) as [y | ]; split.
    + intros H. injection H as ->. auto.
    + intros [_ H]. injection H as ->. reflexivity.
    + discriminate.
    + intros [_ H]. discriminate.
Qed.

Lemma at_index_in_range (a : t) (i : Z) :
  0 <= i < Len a -> exists x, at_index a i = Returns x.
Proof.
  unfold Len. intros H.
  destruct (nth_error a (Z.to_nat i)) as [x | ] eqn:E.
  - exists x. apply at_index_Returns. split; [ lia | exact E ].
  - apply nth_error_None in E. lia.
Qed.

Lemma at_index_out_of_range (a : t) (i : Z) :
  i < 0 \/ Len a <= i -> at_index a i = Panics IndexOutOfRange.
Proof.
  unfold at_index, Len. intros [H | H].
  - apply Z.ltb_lt in H. now rewrite H.
  - destruct (i <? 0); [ reflexivity | ].
    assert (nth_error a (Z.to_nat i) = None) as ->; [ | reflexivity ].
    apply nth_error_None. lia.
Qed.

Lemma length_update (a : t) (n : nat) (v : bytes) :
  List.length (update a n v) = List.length a.
Proof.
  revert n. induction a as [ | x a IH ]; intros [ | n ]; simpl; auto.
Qed.

Lemma nth_error_update (a : t) (n m : nat) (v : bytes) :
  nth_error (update a n v) m =
  if Nat.eqb n m
  then (if Nat.ltb n (List.length a) then Some v else None)
  else nth_error a m.
Proof.
  revert n m. induction a as [ | x a IH ]; intros [ | n ] [ | m ]; simpl;
    try reflexivity.
  - now destruct (Nat.eqb n m).
  - rewrite IH. reflexivity.
Qed.

Lemma update_head_Permutation (h y : bytes) (r : t) (j : nat) :
  nth_error r j = Some y -> Permutation (h :: r) (y :: update r j h).
Proof.
  revert j. induction r as [ | z r IH ]; intros [ | j ]; simpl;
    try discriminate.
  - intros H. injection H as ->. apply perm_swap.
  - intros H. apply perm_trans with (z :: h :: r); [ apply perm_swap | ].
    apply perm_trans with (z :: y :: update r j h);
      [ apply perm_skip, IH, H | apply perm_swap ].
Qed.

Lemma swap_Permutation (a : t) (i j : nat) (x y : bytes) :
  nth_error a i = Some x -> nth_error a j = Some y ->
  Permutation a (update (update a i y) j x).
Proof.
  revert i j. induction a as [ | h a IH ]; intros [ | i ] [ | j ]; simpl;
    try discriminate.
  - intros Hx Hy. injection Hx as ->. injection Hy as ->. apply Permutation_refl.
  - intros Hx Hy. injection Hx as ->. now apply update_head_Permutation.
  - intros Hx Hy. injection Hy as ->. now apply update_head_Permutation.
  - intros Hx Hy. apply perm_skip. now apply IH.
Qed.

(** X17. On indexes in range [Less] is the strict order of the names as byte
    strings: no name is less than itself, of two names at most one is less
    than the other, the order is transitive, and two names neither of which
    is less than the other are equal; on an index out of range [Less]
    panics. *)
Theorem Less_strict_order (a : t) (i j k : Z) :
  0 <= i < Len a -> 0 <= j < Len a -> 0 <= k < Len a ->
  Less a i i = Returns false /\
  (Less a i j = Returns true -> Less a j i = Returns false) /\
  (Less a i j = Returns true -> Less a j k = Returns true ->
   Less a i k = Returns true) /\
  (Less a i j = Returns false -> Less a j i = Returns false ->
   at_index a i = at_index a j) /\
  (forall n, n < 0 \/ Len a <= n ->
             Less a n i = Panics IndexOutOfRange /\
             Less a i n = Panics IndexOutOfRange).
Proof.
  intros Hi Hj Hk.
  destruct (at_index_in_range a Hi) as [x Hx].
  destruct (at_index_in_range a Hj) as [y Hy].
  destruct (at_index_in_range a Hk) as [z Hz].
  unfold Less. rewrite Hx, Hy, Hz. cbn [bind].
  split; [ | split; [ | split; [ | split ] ] ].
  - now rewrite GoBytesFacts.ltb_irrefl.
  - intros H. injection H as H. f_equal.
    unfold GoBytes.ltb in *. rewrite (GoBytesFacts.Compare_antisym x y).
    now destruct (GoBytes.Compare x y).
  - intros H1 H2. injection H1 as H1. injection H2 as H2. f_equal.
    unfold GoBytes.ltb in *.
    destruct (GoBytes.Compare x y) eqn:E1; try discriminate.
    destruct (GoBytes.Compare y z) eqn:E2; try discriminate.
    now rewrite (GoBytesFacts.Compare_trans _ _ _ E1 E2).
  - intros H1 H2. injection H1 as H1. injection H2 as H2. f_equal.
    unfold GoBytes.ltb in *. rewrite (GoBytesFacts.Compare_antisym x y) in H2.
    destruct (GoBytes.Compare x y) eqn:E; try discriminate.
    now apply GoBytesFacts.Compare_eq.
  - intros n Hn. rewrite (at_index_out_of_range a Hn). now cbn.
Qed.

Lemma Less_strict_order_witness :
  Less example_names 1 1 = Returns false /\
  (Less example_names 1 2 = Returns true ->
   Less example_names 2 1 = Returns false) /\
  (Less example_names 1 2 = Returns true ->
   Less example_names 2 0 = Returns true ->
   Less example_names 1 0 = Returns true) /\
  (Less example_names 1 2 = Returns false ->
   Less example_names 2 1 = Returns false ->
   at_index example_names 1 = at_index example_names 2) /\
  (forall n, n < 0 \/ Len example_names <= n ->
             Less example_names n 1 = Panics IndexOutOfRange /\
             Less example_names 1 n = Panics IndexOutOfRange).
Proof.
  apply (@Less_strict_order example_names 1 2 0); unfold Len; simpl; lia.
Defined.

(** X18. On indexes in range [Swap] exchanges the two names and leaves the
    others where they are: the result has the length and the names of the
    slice, as a permutation of it, and a second [Swap] of the same indexes
    gives the slice back; on an index out of range [Swap] panics. *)
Theorem Swap_exchanges (a : t) (i j : Z) :
  0 <= i < Len a -> 0 <= j < Len a ->
  (exists a',
     Swap a i j = Returns a' /\
     Len a' = Len a /\
     at_index a' i = at_index a j /\
     at_index a' j = at_index a i /\
     (forall k, k <> i -> k <> j -> at_index a' k = at_index a k) /\
     Permutation a a' /\
     Swap a' i j = Returns a) /\
  (forall n, n < 0 \/ Len a <= n ->
             Swap a n i = Panics IndexOutOfRange /\
             Swap a i n = Panics IndexOutOfRange).
Proof.
  intros Hi Hj.
  destruct (at_index_in_range a Hi) as [x Hx].
  split.
  2:{ intros n Hn. unfold Swap.
      rewrite (at_index_out_of_range a Hn), Hx. now cbn. }
  destruct (at_index_in_range a Hj) as [y Hy].
  pose proof Hx as Hx'. pose proof Hy as Hy'.
  apply at_index_Returns in Hx', Hy'.
  destruct Hx' as [_ Hnx], Hy' as [_ Hny].
  unfold Len in Hi, Hj.
  set (ni := Z.to_nat i) in *. set (nj := Z.to_nat j) in *.
  assert (ni < List.length a)%nat as Hli by lia.
  assert (nj < List.length a)%nat as Hlj by lia.
  set (a' := update (update a ni y) nj x).
  assert (forall m, nth_error a' m =
                    if Nat.eqb nj m then Some x
                    else if Nat.eqb ni m then Some y else nth_error a m)
    as Hnth.
  { intros m. unfold a'. rewrite !nth_error_update, length_update.
    apply Nat.ltb_lt in Hli, Hlj. now rewrite Hli, Hlj. }
  assert (forall k, at_index a' k =
                    if k <? 0 then Panics IndexOutOfRange
                    else if Nat.eqb nj (Z.to_nat k) then Returns x
                    else if Nat.eqb ni (Z.to_nat k) then Returns y
                    else at_index a k) as Hat.
  { intros k. unfold at_index. destruct (k <? 0); [ reflexivity | ].
    rewrite Hnth. destruct (Nat.eqb nj (Z.to_nat k)); [ reflexivity | ].
    now destruct (Nat.eqb ni (Z.to_nat k)). }
  assert ((i <? 0) = false) as Hi0 by (apply Z.ltb_ge; lia).
  assert ((j <? 0) = false) as Hj0 by (apply Z.ltb_ge; lia).
  exists a'. split; [ | split; [ | split; [ | split; [ | split; [ | split ] ] ] ] ].
  - unfold Swap. now rewrite Hy, Hx.
  - unfold Len, a'. now rewrite !length_update.
  - rewrite Hat, Hi0. fold ni. destruct (Nat.eqb nj ni) eqn:E.
    + apply Nat.eqb_eq in E. rewrite Hy. f_equal. congruence.
    + now rewrite Nat.eqb_refl.
  - rewrite Hat, Hj0. fold nj. now rewrite Nat.eqb_refl.
  - intros k Hki Hkj. rewrite Hat. destruct (k <? 0) eqn:Ek.
    + apply Z.ltb_lt in Ek. symmetry. apply at_index_out_of_range. now left.
    + apply Z.ltb_ge in Ek.
      assert (Nat.eqb nj (Z.to_nat k) = false) as ->
        by (apply Nat.eqb_neq; lia).
      assert (Nat.eqb ni (Z.to_nat k) = false) as ->
        by (apply Nat.eqb_neq; lia).
      reflexivity.
  - now apply swap_Permutation.
  - unfold Swap. rewrite !Hat, Hi0, Hj0. fold ni nj.
    rewrite !Nat.eqb_refl.
    assert ((if Nat.eqb nj ni then Returns x else Returns y) =
            Returns (if Nat.eqb nj ni then x else y)) as ->
      by now destruct (Nat.eqb nj ni).
    cbn [bind]. f_equal. apply nth_error_ext. intros m.
    assert (List.length a' = List.length a) as Hlen
      by (unfold a'; now rewrite !length_update).
    rewrite !nth_error_update, length_update, Hlen, Hnth.
    apply Nat.ltb_lt in Hli, Hlj. rewrite Hli, Hlj.
    destruct (Nat.eqb nj m) eqn:Ejm.
    + apply Nat.eqb_eq in Ejm. subst m. rewrite Hny.
      destruct (Nat.eqb nj ni) eqn:E; [ | reflexivity ].
      apply Nat.eqb_eq in E. congruence.
    + destruct (Nat.eqb ni m) eqn:Eim; [ | reflexivity ].
      apply Nat.eqb_eq in Eim. subst m. now rewrite Hnx.
Qed.

Lemma Swap_exchanges_witness :
  (exists a',
     Swap example_names 0 1 = Returns a' /\
     Len a' = Len example_names /\
     at_index a' 0 = at_index example_names 1 /\
     at_index a' 1 = at_index example_names 0 /\
     (forall k, k <> 0 -> k <> 1 -> at_index a' k = at_index example_names k) /\
     Permutation example_names a' /\
     Swap a' 0 1 = Returns example_names) /\
  (forall n, n < 0 \/ Len example_names <= n ->
             Swap example_names n 0 = Panics IndexOutOfRange /\
             Swap example_names 0 n = Panics IndexOutOfRange).
Proof.
  apply (@Swap_exchanges example_names 0 1); unfold Len; simpl; lia.
Defined.

End RegionNamesFacts.
